(** * Linux-CommA: patch tracking between upstream and downstream kernels

    A shallow embedding of the reconciliation engine of the repository
    (src/comma/downstream/monitor.py, src/comma/util/symbols.py,
    src/UpstreamTracker/ParseData.py, src/UpstreamTracker/Symbols.py)
    and the properties its specification states about it.

    Conventions of the embedding.
    - Python [str] values are [string]s of bytes; the character classes of
      [str.strip], [str.lower] and [str.splitlines] are the ASCII ones.
    - Python [set]s are [gset]s, lists are lists, integers are [Z].
    - A computation that can raise returns a [result]; code that mutates
      the database or the git repository and can raise runs in the monad
      [M], whose state survives an exception (what a session committed
      before the exception stays committed).
    - The git backend, the parts of the database driver and the matcher
      that are not in the source tree are parameters of the sections. *)

From Stdlib Require Import ZArith QArith Lia Lqa Ascii String List Permutation.
From stdpp Require Import base decidable option list sets gmap strings sorting.

Close Scope Q_scope.
Local Open Scope string_scope.
Local Open Scope list_scope.

(** * Python primitives *)

Module Py.

(** The exceptions the embedded code can raise. *)
Inductive exn : Type :=
| IndexError (msg : string)
| ValueError (msg : string)
| GitCommandError (stderr : string)
| CalledProcessError (returncode : Z)
| NoResultFound
| MultipleResultsFound.

Inductive result (A : Type) : Type :=
| Ok (a : A)
| Raise (e : exn).

Arguments Ok {A} a.
Arguments Raise {A} e.

Definition rbind {A B : Type} (r : result A) (k : A -> result B) : result B :=
  match r with
  | Ok a => k a
  | Raise e => Raise e
  end.

Definition is_ok {A : Type} (r : result A) : bool :=
  match r with Ok _ => true | Raise _ => false end.

(** [l[i]] for a non-negative index. *)
Definition index {A : Type} (l : list A) (i : nat) : result A :=
  match nth_error l i with
  | Some x => Ok x
  | None => Raise (IndexError "list index out of range")
  end.

(** [min(xs)] over integers. *)
Definition py_min (xs : list Z) : result Z :=
  match xs with
  | [] => Raise (ValueError "min() arg is an empty sequence")
  | x :: xs' => Ok (fold_left Z.min xs' x)
  end.

(** [s.startswith(p)] *)
Definition startswith (s p : string) : bool := String.prefix p s.

(** [s.startswith((p1, ..., pn))] *)
Definition startswith_any (s : string) (ps : list string) : bool :=
  existsb (startswith s) ps.

(** [needle in s] *)
Fixpoint contains (needle s : string) : bool :=
  String.prefix needle s ||
  match s with
  | EmptyString => false
  | String _ s' => contains needle s'
  end.

(** [s.split(sep)] for a separator of one character. *)
Fixpoint split (sep : ascii) (s : string) : list string :=
  match s with
  | EmptyString => [EmptyString]
  | String c s' =>
      if Ascii.eqb c sep then EmptyString :: split sep s'
      else match split sep s' with
           | w :: ws => String c w :: ws
           | [] => [String c EmptyString]
           end
  end.

(** [s.split(sep, 1)[-1]]: what follows the first [sep], or all of [s]. *)
Fixpoint after_first (sep : ascii) (s : string) : string :=
  match s with
  | EmptyString => EmptyString
  | String c s' =>
      if Ascii.eqb c sep then s'
      else if contains (String sep EmptyString) s' then after_first sep s'
      else s
  end.

(** [sep.join(l)] *)
Definition join (sep : string) (l : list string) : string := String.concat sep l.

(** ASCII white space, as [str.strip] sees it: 0x09-0x0d, 0x1c-0x1f, 0x20. *)
Definition is_space (c : ascii) : bool :=
  let n := nat_of_ascii c in
  ((9 <=? n) && (n <=? 13) || (28 <=? n) && (n <=? 31) || (n =? 32))%nat.

Fixpoint lstrip (s : string) : string :=
  match s with
  | EmptyString => EmptyString
  | String c s' => if is_space c then lstrip s' else s
  end.

Fixpoint rstrip (s : string) : string :=
  match s with
  | EmptyString => EmptyString
  | String c s' =>
      let r := rstrip s' in
      if is_space c && String.eqb r EmptyString then EmptyString else String c r
  end.

(** [s.strip()] *)
Definition strip (s : string) : string := rstrip (lstrip s).

Definition lower_ascii (c : ascii) : ascii :=
  let n := nat_of_ascii c in
  if ((65 <=? n) && (n <=? 90))%nat then ascii_of_nat (n + 32) else c.

(** [s.lower()] *)
Fixpoint lower (s : string) : string :=
  match s with
  | EmptyString => EmptyString
  | String c s' => String (lower_ascii c) (lower s')
  end.

(** Lines of a text: a line ends at a character of [brk]; CR LF ends it
    once; a text that ends with a break has no empty last line. *)
Fixpoint split_breaks (brk : ascii -> bool) (s : string) : list string :=
  match s with
  | EmptyString => []
  | String c s' =>
      if brk c then
        EmptyString ::
          match s' with
          | String c' s'' =>
              if ((nat_of_ascii c =? 13) && (nat_of_ascii c' =? 10))%nat
              then split_breaks brk s'' else split_breaks brk s'
          | EmptyString => []
          end
      else match split_breaks brk s' with
           | w :: ws => String c w :: ws
           | [] => [String c EmptyString]
           end
  end.

(** ASCII line boundaries of [str.splitlines]:
    LF, VT, FF, CR, FS, GS, RS. *)
Definition is_linebreak (c : ascii) : bool :=
  let n := nat_of_ascii c in
  ((10 <=? n) && (n <=? 13) || (28 <=? n) && (n <=? 30))%nat.

(** [s.splitlines()] *)
Definition splitlines (s : string) : list string := split_breaks is_linebreak s.

(** Line ends of a text file opened in text mode: LF, CR, CR LF. *)
Definition is_newline (c : ascii) : bool :=
  let n := nat_of_ascii c in ((n =? 10) || (n =? 13))%nat.

(** [[line.strip() for line in f]] for a file [f] with the given content. *)
Definition stripped_lines (content : string) : list string :=
  map strip (split_breaks is_newline content).

(** [sorted(l)] for a list of strings. *)
Definition str_le (s1 s2 : string) : Prop := String.leb s1 s2 = true.

#[export] Instance str_le_dec (s1 s2 : string) : Decision (str_le s1 s2).
Proof. unfold str_le. apply _. Defined.

Definition sorted (l : list string) : list string := merge_sort str_le l.

(** ** State and exceptions

    [M S A]: a computation over a state [S] that returns an [A] or raises.
    The state reached when the exception is raised is kept. *)
Definition M (S A : Type) : Type := S -> result A * S.

Definition ret {S A : Type} (a : A) : M S A := fun s => (Ok a, s).

Definition raise {S A : Type} (e : exn) : M S A := fun s => (Raise e, s).

Definition bind {S A B : Type} (m : M S A) (k : A -> M S B) : M S B :=
  fun s =>
    match m s with
    | (Ok a, s') => k a s'
    | (Raise e, s') => (Raise e, s')
    end.

Definition lift {S A : Type} (r : result A) : M S A := fun s => (r, s).

Definition get {S : Type} : M S S := fun s => (Ok s, s).

Definition gets {S A : Type} (f : S -> A) : M S A := fun s => (Ok (f s), s).

Definition modify {S : Type} (f : S -> S) : M S unit := fun s => (Ok tt, f s).

(** [for x in l: body(x)] *)
Fixpoint for_each {S A : Type} (l : list A) (body : A -> M S unit) : M S unit :=
  match l with
  | [] => ret tt
  | x :: l' => bind (body x) (fun _ => for_each l' body)
  end.

(** [try: body except ...: handler]; [handler e] is [None] when no
    except clause matches [e], which then propagates. *)
Definition try_except {S A : Type} (body : M S A)
    (handler : exn -> option (M S A)) : M S A :=
  fun s =>
    match body s with
    | (Ok a, s') => (Ok a, s')
    | (Raise e, s') =>
        match handler e with
        | Some h => h s'
        | None => (Raise e, s')
        end
    end.

(** [try: body finally: cleanup] *)
Definition try_finally {S A : Type} (body : M S A) (cleanup : M S unit) : M S A :=
  fun s =>
    match body s with
    | (r, s') =>
        match cleanup s' with
        | (Ok _, s'') => (r, s'')
        | (Raise e, s'') => (Raise e, s'')
        end
    end.

End Py.

Import Py.

Declare Scope py_scope.
Delimit Scope py_scope with py.
Notation "x <- c ;; k" := (bind c (fun x => k))
  (at level 100, c at next level, right associativity) : py_scope.
Notation "c ;;; k" := (bind c (fun _ => k))
  (at level 100, right associativity) : py_scope.

(** * src/UpstreamTracker/ParseData.py *)

Module ParseData.

Local Open Scope py_scope.

(** [Objects.confidence_weight]: five positional weights. *)
Record confidence_weight : Type := mk_confidence_weight {
  cw0 : Q; cw1 : Q; cw2 : Q; cw3 : Q; cw4 : Q
}.

Definition weights (c : confidence_weight) : list Q :=
  [cw0 c; cw1 c; cw2 c; cw3 c; cw4 c].

(** The two vectors [insert_patch] builds (lines 31 and 36). *)
Definition conf_ubuntu_debian : confidence_weight :=
  mk_confidence_weight 0.2 0.49 0.1 0.2 0.01.

Definition conf_suse : confidence_weight :=
  mk_confidence_weight 0 1 0 0 0.

(** Modelled from the spec: the score of the matcher
    ([match.get_matching_patch], not in the source tree) is the dot product
    of the family's weight vector and the vector of the five signals. *)
Fixpoint dot (ws ss : list Q) : Q :=
  match ws, ss with
  | w :: ws', s :: ss' => (w * s + dot ws' ss')%Q
  | _, _ => 0%Q
  end.

Definition confidence_score (c : confidence_weight) (signals : list Q) : Q :=
  dot (weights c) signals.

(** The weight vector that is 1 at index [k] and 0 elsewhere, of length [n]. *)
Fixpoint one_hot (n k : nat) : list Q :=
  match n with
  | O => []
  | S n' =>
      match k with
      | O => 1%Q :: repeat 0%Q n'
      | S k' => 0%Q :: one_hot n' k'
      end
  end.

Definition in_unit (q : Q) : Prop := (0 <= q)%Q /\ (q <= 1)%Q.

Fixpoint Qsum (l : list Q) : Q :=
  match l with
  | [] => 0%Q
  | q :: l' => (q + Qsum l')%Q
  end.

(** What the data model asks of a weight vector. *)
Definition valid_weights (ws : list Q) : Prop :=
  length ws = 5%nat /\ Forall in_unit ws /\ (Qsum ws == 1)%Q.

Definition valid_signals (ss : list Q) : Prop :=
  length ss = 5%nat /\ Forall in_unit ss.

(** A commit as GitPython hands it to [parse_log]. *)
Record Commit : Type := {
  hexsha : string;
  author_name : string;
  author_email : string;
  committed_date : Z;
  authored_date : Z;
  message : string;
  parents : list string
}.

(** One entry of [tree.diff(parent, paths, create_patch=True)]. *)
Record Diff : Type := {
  a_path : option string;
  diff : string
}.

(** The fields [parse_log] sets on an [UpstreamPatch] or [Ubuntu_Patch]. *)
Record Patch : Type := {
  p_commit_id : string;
  p_author_name : string;
  p_author_email : string;
  p_commit_time : Z;
  p_author_time : Z;
  p_subject : string;
  p_description : string;
  p_fixed_patches : string;
  p_buglink : string;
  p_filenames : string;
  p_diff : string
}.

Record Distro : Type := {
  distro_id : string;
  kernel_version : string
}.

Definition newline : ascii := ascii_of_nat 10.
Definition nl : string := String newline EmptyString.

Definition ignore_phrases : list string :=
  ["reported-by:"; "signed-off-by:"; "reviewed-by:"; "acked-by:"; "cc:"].

Definition should_keep_line (line : string) : bool :=
  let simplified_line := lower line in
  if String.eqb simplified_line "" then false
  else if startswith_any simplified_line ignore_phrases then false
  else true.

(** Line 65. *)
Definition split_message (msg : string) : list string :=
  map strip (split newline msg).

(** Lines 77-83: the kept lines after the subject. *)
Definition description_lines (split_msg : list string) : list string :=
  if (1 <? length split_msg)%nat then filter should_keep_line (tl split_msg) else [].

Definition description (split_msg : list string) : string :=
  if (1 <? length split_msg)%nat then join nl (description_lines split_msg) else "".

(** Lines 87-93: the second word of every "fixes:" line that has one. *)
Fixpoint fixed_patches_loop (lines : list string) (acc : list string)
  : result (list string) :=
  match lines with
  | [] => Ok acc
  | line :: rest =>
      let words := split " " line in
      if (1 <? length words)%nat then
        rbind (index words 1) (fun w => fixed_patches_loop rest (acc ++ [w]))
      else fixed_patches_loop rest acc
  end.

Definition extract_fixed_patches (desc_lines : list string) : result string :=
  let fixed_patches_lines :=
    filter (fun x => startswith (lower (strip x)) "fixes:") desc_lines in
  rbind (fixed_patches_loop fixed_patches_lines [])
        (fun fixed_patches => Ok (join " " fixed_patches)).

(** Lines 96-100: the second word of the first "BugLink:" line;
    [None] when there is no such line (the field keeps its value). *)
Definition extract_buglink (desc_lines : list string) : result (option string) :=
  let buglink_lines := filter (fun x => startswith x "BugLink:") desc_lines in
  if (0 <? length buglink_lines)%nat then
    rbind (index buglink_lines 0) (fun line =>
    let words := split " " line in
    rbind (index words 1) (fun w => Ok (Some w)))
  else Ok None.

(** Lines 57-100 of the loop body: the patch built from the commit itself.
    [get_patch_object] starts every text field at the empty string. *)
Definition parse_commit (indicator : string) (c : Commit) : result Patch :=
  let split_msg := split_message (message c) in
  rbind (index split_msg 0) (fun subject =>
  let desc_lines := description_lines split_msg in
  let desc := description split_msg in
  rbind (if String.eqb indicator "Upstream" && negb (String.eqb desc "")
         then extract_fixed_patches desc_lines else Ok "") (fun fixed =>
  rbind (if startswith indicator "Ub"
         then extract_buglink desc_lines else Ok None) (fun buglink =>
  Ok {| p_commit_id := hexsha c;
        p_author_name := author_name c;
        p_author_email := author_email c;
        p_commit_time := committed_date c;
        p_author_time := authored_date c;
        p_subject := subject;
        p_description := desc;
        p_fixed_patches := fixed;
        p_buglink := default "" buglink;
        p_filenames := "";
        p_diff := "" |}))).

(** Lines 115-117. *)
Definition parse_diff (d : string) : string :=
  join nl (filter (fun line => startswith_any line ["+"; "-"]) (splitlines d)).

Definition diff_entry (d : Diff) : option string :=
  match a_path d with
  | Some p => Some (String.append p (String.append nl (parse_diff (diff d))))
  | None => None
  end.

Section Collaborators.

(** The database object, the matcher and the diff of a commit against its
    first parent are not in the source tree. *)
Variable DB : Type.
Variable Match : Type.
Variable check_commit_present : DB -> string -> option Distro -> bool.
Variable insert_upstream : Patch -> DB -> DB.
Variable insertInto : Match -> option Distro -> Patch -> DB -> DB.
Variable get_matching_patch : DB -> Patch -> confidence_weight -> option Match.
Variable tree_diff : Commit -> list Diff.

(** Lines 27-39. *)
Definition insert_patch (distro : option Distro) (patch : Patch)
    (indicator : string) (db : DB) : DB :=
  if String.eqb indicator "Upstream" then insert_upstream patch db
  else if startswith indicator "Ub" || startswith indicator "De" then
    match get_matching_patch db patch conf_ubuntu_debian with
    | Some dict1 => insertInto dict1 distro patch db
    | None => db
    end
  else if startswith indicator "SUSE" then
    match get_matching_patch db patch conf_suse with
    | Some dict1 => insertInto dict1 distro patch db
    | None => db
    end
  else db.

Record LogState : Type := {
  db : DB;
  count_added : nat;
  count_present : nat
}.

(** Lines 56-126: one turn of the loop over the commits. *)
Definition parse_log_body (distro : option Distro) (indicator : string)
    (curr_commit : Commit) : M LogState unit :=
  patch <- lift (parse_commit indicator curr_commit) ;;
  if (length (parents curr_commit) =? 0)%nat then ret tt
  else
    let commit_diffs := tree_diff curr_commit in
    let filenames_list := omap a_path commit_diffs in
    let patch :=
      {| p_commit_id := p_commit_id patch;
         p_author_name := p_author_name patch;
         p_author_email := p_author_email patch;
         p_commit_time := p_commit_time patch;
         p_author_time := p_author_time patch;
         p_subject := p_subject patch;
         p_description := p_description patch;
         p_fixed_patches := p_fixed_patches patch;
         p_buglink := p_buglink patch;
         p_filenames := join " " filenames_list;
         p_diff := join nl (omap diff_entry commit_diffs) |} in
    modify (fun st =>
      if check_commit_present (db st) (p_commit_id patch) distro then
        {| db := db st; count_added := count_added st;
           count_present := S (count_present st) |}
      else
        {| db := insert_patch distro patch indicator (db st);
           count_added := S (count_added st);
           count_present := count_present st |}).

(** Lines 41-128; the commits are those [repo.iter_commits] yields. *)
Definition parse_log (commits : list Commit) (distro : option Distro)
    (indicator : string) (db0 : DB) : result (nat * nat) * DB :=
  let st0 := {| db := db0; count_added := 0; count_present := 0 |} in
  match for_each commits (parse_log_body distro indicator) st0 with
  | (Ok _, st) => (Ok (count_added st, count_present st), db st)
  | (Raise e, st) => (Raise e, db st)
  end.

End Collaborators.

End ParseData.

(** * The tables of comma.database.model that the code reads and writes *)

Module Database.

Record PatchData : Type := {
  patchID : Z;
  commitID : string;
  commitTime : Z;
  symbols : option string   (* NULL until the symbol tracker fills it *)
}.

Record MonitoringSubjects : Type := {
  monitoringSubjectID : Z;
  distroID : string;
  revision : string
}.

Record MonitoringSubjectsMissingPatches : Type := {
  mp_monitoringSubjectID : Z;
  mp_patchID : Z
}.

#[export] Instance PatchData_eq_dec : EqDecision PatchData.
Proof. solve_decision. Defined.

#[export] Instance MissingPatches_eq_dec : EqDecision MonitoringSubjectsMissingPatches.
Proof. solve_decision. Defined.

(** [.order_by(PatchData.commitTime)] *)
Definition time_le (p q : PatchData) : Prop := (commitTime p <= commitTime q)%Z.

#[export] Instance time_le_dec (p q : PatchData) : Decision (time_le p q).
Proof. unfold time_le. apply _. Defined.

Definition order_by_commitTime (rows : list PatchData) : list PatchData :=
  merge_sort time_le rows.

(** [.one()] *)
Definition one {A : Type} (rows : list A) : result A :=
  match rows with
  | [] => Raise NoResultFound
  | [x] => Ok x
  | _ => Raise MultipleResultsFound
  end.

End Database.

Import Database.

(** * src/comma/util/symbols.py *)

Module Symbols.

Local Open Scope py_scope.

(** What the tracker reads and writes: the reference the work tree is at
    and the PatchData table. *)
Record State : Type := {
  head : string;
  patch_table : list PatchData
}.

Definition set_head (ref : string) (st : State) : State :=
  {| head := ref; patch_table := patch_table st |}.

Definition set_table (t : list PatchData) (st : State) : State :=
  {| head := head st; patch_table := t |}.

(** [patch.symbols = s] on the rows of commit [commit]. *)
Definition set_symbols (commit s : string) (p : PatchData) : PatchData :=
  if String.eqb (commitID p) commit then
    {| patchID := patchID p; commitID := commitID p;
       commitTime := commitTime p; symbols := Some s |}
  else p.

(** The default of the parameter [prev_commit]. *)
Definition default_prev_commit : string :=
  "097c1bd5673edaf2a162724636858b71f658fdd2".

Section Tracker.

(** [checkout_error ref] is the error output of checking out [ref] when that
    fails. [ctags ref files] is the exit status and the output of the
    symbol extraction command in the work tree at [ref]. [iter] is the
    order in which a set of symbols is iterated. *)
Variable checkout_error : string -> option string.
Variable ctags : string -> list string -> Z * string.
Variable iter : gset string -> list string.

Definition checkout (ref : string) : M State unit :=
  fun st =>
    match checkout_error ref with
    | Some err => (Raise (GitCommandError err), st)
    | None => (Ok tt, set_head ref st)
    end.

(** Lines 23-42; [subprocess.run(..., check=True)]. *)
Definition get_symbols (files : list string) : M State (gset string) :=
  fun st =>
    match ctags (head st) files with
    | (0%Z, stdout) => (Ok (list_to_set (splitlines stdout)), st)
    | (rc, _) => (Raise (CalledProcessError rc), st)
    end.

(** Lines 120-122: one session, committed when [.one()] found the row. *)
Definition save_symbols (commit : string) (diff_symbols : gset string)
  : M State unit :=
  fun st =>
    match one (filter (fun p => String.eqb (commitID p) commit) (patch_table st)) with
    | Ok _ =>
        (Ok tt,
         set_table (map (set_symbols commit (join " " (iter diff_symbols)))
                        (patch_table st)) st)
    | Raise e => (Raise e, st)
    end.

(** Lines 103-125: the loop, with [before_patch_apply] as its variable. *)
Fixpoint replay (paths : list string) (commits : list string)
    (before_patch_apply : option (gset string)) : M State unit :=
  match commits with
  | [] => ret tt
  | commit :: rest =>
      before <- match before_patch_apply with
                | None => get_symbols paths
                | Some b => ret b
                end ;;
      checkout commit ;;;
      after_patch_apply <- get_symbols paths ;;
      let diff_symbols := after_patch_apply ∖ before in
      save_symbols commit diff_symbols ;;;
      replay paths rest (Some after_patch_apply)
  end.

(** Lines 82-129. The initial reference is read before the [try]; the
    [finally] clause checks it out again whatever the body did. *)
Definition map_symbols_to_patch (commits : list string) (paths : list string)
    (prev_commit : string) : M State unit :=
  initial_reference <- gets head ;;
  try_finally
    (checkout prev_commit ;;; replay paths commits None)
    (checkout initial_reference).

(** The symbols of the work tree at [ref], read from the tool's output. *)
Definition symbols_at (paths : list string) (ref : string) : gset string :=
  list_to_set (splitlines (snd (ctags ref paths))).

(** The pairs (commit, introduced symbols) of a sequence replayed after a
    state whose symbols are [before], and what persisting them does. *)
Fixpoint deltas (paths : list string) (before : gset string)
    (commits : list string) : list (string * gset string) :=
  match commits with
  | [] => []
  | c :: rest =>
      (c, symbols_at paths c ∖ before) :: deltas paths (symbols_at paths c) rest
  end.

Definition persist (table : list PatchData) (cd : string * gset string)
  : list PatchData :=
  map (set_symbols (fst cd) (join " " (iter (snd cd)))) table.

(** The symbols the loop compares the next commit with: its variable, or
    those of the work tree when the variable is still [None]. *)
Definition before_of (paths : list string) (b : option (gset string))
    (st : State) : gset string :=
  match b with
  | Some b => b
  | None => symbols_at paths (head st)
  end.

(** The table has exactly one row for commit [c]. *)
Definition one_row (c : string) (table : list PatchData) : Prop :=
  exists p, filter (fun p => String.eqb (commitID p) c) table = [p].

(** The reference replayed just before commit [i] of the sequence. *)
Definition predecessor (prev_commit : string) (commits : list string)
    (i : nat) : string :=
  match i with
  | O => prev_commit
  | S j => default prev_commit (commits !! j)
  end.

End Tracker.

Section Checker.

(** [sql_ne_space s] is the value the database gives [symbols != " "] on a
    row whose symbols are the string [s]; on a NULL the comparison is not
    true and the row is left out. *)
Variable sql_ne_space : string -> bool.

Definition has_missing (symbols_in_file : gset string) (syms : string) : bool :=
  (0 <? size ((list_to_set (split " " syms) : gset string) ∖ symbols_in_file))%nat.

Definition checked_row (symbols_in_file : gset string) (p : PatchData)
  : option string :=
  match symbols p with
  | Some syms =>
      if sql_ne_space syms && has_missing symbols_in_file syms
      then Some (commitID p) else None
  | None => None
  end.

Definition symbols_in_file (content : string) : gset string :=
  list_to_set (stripped_lines content).

(** Lines 131-148; [content] is the text of the file at [file_path]. *)
Definition symbol_checker (content : string) (rows : list PatchData) : list string :=
  sorted (omap (checked_row (symbols_in_file content)) (order_by_commitTime rows)).

End Checker.

(** The comparison of a database that compares strings byte by byte. *)
Definition binary_ne_space (s : string) : bool := negb (String.eqb s " ").

(** The ids of [ids] come in the order of the commit times of their rows. *)
Definition ordered_by_commit_time (rows : list PatchData) (ids : list string)
  : Prop :=
  forall (i j : nat) (p q : PatchData),
    (i < j)%nat -> p ∈ rows -> q ∈ rows ->
    ids !! i = Some (commitID p) -> ids !! j = Some (commitID q) ->
    (commitTime p <= commitTime q)%Z.

End Symbols.

(** * src/UpstreamTracker/Symbols.py, the earlier symbol checker *)

Module UpstreamTracker.

Section Legacy.

(** [Util.util.list_diff] is not in the source tree. *)
Variable list_diff : list string -> list string -> list string.

(** Lines 86-100; [symbol_map] is the dictionary [up.get_patch_symbols()]
    returns, as its items. *)
Definition symbol_checker (content : string)
    (symbol_map : list (Z * list string)) : list Z :=
  let list_of_symbols := stripped_lines content in
  merge_sort Z.le
    (omap (fun kv : Z * list string =>
             if (0 <? length (list_diff (snd kv) list_of_symbols))%nat
             then Some (fst kv) else None)
          symbol_map).

End Legacy.

End UpstreamTracker.

(** * src/comma/downstream/monitor.py *)

Module Monitor.

Local Open Scope py_scope.

Inductive FetchOpt : Type :=
| Depth (n : nat)                 (* depth=n *)
| ShallowSince (date : string)    (* shallow_since=date *)
| NoOpt.

Definition shallow_since_unsupported : string :=
  "Server does not support --shallow-since".

(** [set(output.splitlines())] *)
Definition line_set (output : string) : gset string :=
  list_to_set (splitlines output).

Section Backend.

(** Configuration: [config.since], its timestamp, [get_tracked_paths()]. *)
Variable since : string.
Variable approx_date_since : Z.
Variable tracked_paths : list string.

(** The git repository. [git_log] is [repo.git.log] on its arguments;
    [fetch] is [remote.fetch] and gives the commit time of the last entry
    of the fetch info; both can raise. *)
Variable Repo : Type.
Variable git_log : Repo -> list string -> result string.
Variable remote_exists : Repo -> string -> bool.
Variable fetch : Repo -> string -> string -> FetchOpt -> result Z * Repo.
Variable has_reference : Repo -> string -> bool.
Variable create_tag : Repo -> string -> string -> Repo.

(** [comma.upstream.parser.process_commits] and
    [comma.downstream.matcher.patch_matches]. *)
Variable DownstreamPatch : Type.
Variable process_commits : Repo -> string -> Z -> result (list DownstreamPatch).
Variable patch_matches : list DownstreamPatch -> PatchData -> bool.

(** Whether a query in a session sees the rows the session has added and
    not yet committed (the session factory is not in the source tree). *)
Variable autoflush : bool.

Record World : Type := {
  repo : Repo;
  patch_data : list PatchData;
  missing_patches : list MonitoringSubjectsMissingPatches
}.

Definition set_repo (g : Repo) (w : World) : World :=
  {| repo := g; patch_data := patch_data w; missing_patches := missing_patches w |}.

Definition set_missing (t : list MonitoringSubjectsMissingPatches) (w : World) : World :=
  {| repo := repo w; patch_data := patch_data w; missing_patches := t |}.

(** Lines 95-102. *)
Definition upstream_log_args : list string :=
  ["--no-merges"; "--pretty=format:%H"; String.append "--since=" since;
   "origin/master"; "--"] ++ tracked_paths.

(** Lines 107-114. *)
Definition cherry_log_args (reference : string) : list string :=
  ["--no-merges"; "--right-only"; "--cherry-pick"; "--pretty=format:%H";
   String.append "--since=" since;
   String.append reference "...origin/master"].

(** Lines 94-117: the candidate commits. *)
Definition missing_cherries (reference : string) : M World (gset string) :=
  w <- get ;;
  upstream_out <- lift (git_log (repo w) upstream_log_args) ;;
  let upstream_commits := line_set upstream_out in
  cherry_out <- lift (git_log (repo w) (cherry_log_args reference)) ;;
  let missing := line_set cherry_out in
  ret (missing ∩ upstream_commits).

(** Lines 124-129. *)
Definition candidate_patches (cherries : gset string) (rows : list PatchData)
  : list PatchData :=
  order_by_commitTime (filter (fun p => bool_decide (commitID p ∈ cherries)) rows).

Definition is_record (subject_id patch_id : Z)
    (r : MonitoringSubjectsMissingPatches) : bool :=
  (mp_monitoringSubjectID r =? subject_id)%Z && (mp_patchID r =? patch_id)%Z.

(** Lines 164-175: the bulk delete of the subject's records whose patch is
    not in the fresh list. *)
Definition delete_present (subject_id : Z) (missing_patch_ids : list Z)
    (rows : list MonitoringSubjectsMissingPatches)
  : list MonitoringSubjectsMissingPatches :=
  filter (fun r => negb ((mp_monitoringSubjectID r =? subject_id)%Z &&
                         negb (bool_decide (mp_patchID r ∈ missing_patch_ids))))
         rows.

(** Lines 183-193: the rows the session adds. *)
Fixpoint add_loop (subject_id : Z) (missing_patch_ids : list Z)
    (table pending : list MonitoringSubjectsMissingPatches)
  : list MonitoringSubjectsMissingPatches :=
  match missing_patch_ids with
  | [] => pending
  | patch_id :: rest =>
      let visible := if autoflush then table ++ pending else table in
      match filter (is_record subject_id patch_id) visible with
      | [] =>
          add_loop subject_id rest table
            (pending ++ [{| mp_monitoringSubjectID := subject_id;
                            mp_patchID := patch_id |}])
      | _ :: _ => add_loop subject_id rest table pending
      end
  end.

(** Lines 178-194. *)
Definition add_missing (subject_id : Z) (missing_patch_ids : list Z)
    (rows : list MonitoringSubjectsMissingPatches)
  : list MonitoringSubjectsMissingPatches :=
  rows ++ add_loop subject_id missing_patch_ids rows [].

(** Lines 157-194: the two sessions of the reconciler. *)
Definition reconcile (subject_id : Z) (missing_patch_ids : list Z)
    (rows : list MonitoringSubjectsMissingPatches)
  : list MonitoringSubjectsMissingPatches :=
  add_missing subject_id missing_patch_ids
    (delete_present subject_id missing_patch_ids rows).

(** Lines 83-194. *)
Definition monitor_subject (monitoring_subject : MonitoringSubjects)
    (reference : option string) : M World unit :=
  let reference := default (revision monitoring_subject) reference in
  cherries <- missing_cherries reference ;;
  w <- get ;;
  let patches := candidate_patches cherries (patch_data w) in
  earliest_commit_date <- lift (py_min (map commitTime patches)) ;;
  downstream_patches <-
    lift (process_commits (repo w) reference earliest_commit_date) ;;
  let missing := filter (fun p => negb (patch_matches downstream_patches p)) patches in
  let missing_patch_ids := map patchID missing in
  let subject_id := monitoringSubjectID monitoring_subject in
  modify (fun w => set_missing (delete_present subject_id missing_patch_ids
                                  (missing_patches w)) w) ;;;
  modify (fun w => set_missing (add_missing subject_id missing_patch_ids
                                  (missing_patches w)) w).

Definition fetch_m (remote ref : string) (opt : FetchOpt) : M World Z :=
  fun w => let (r, g) := fetch (repo w) remote ref opt in (r, set_repo g w).

(** Lines 253-268. *)
Definition fetch_shallow_since (remote remote_ref : string) : M World unit :=
  try_except
    (fetch_m remote remote_ref (ShallowSince since) ;;; ret tt)
    (fun e =>
       match e with
       | GitCommandError stderr =>
           Some (if contains shallow_since_unsupported stderr
                 then fetch_m remote remote_ref NoOpt ;;; ret tt
                 else raise e)
       | _ => None
       end).

(** Lines 227-232. *)
Definition local_and_remote_ref (subject : MonitoringSubjects) : string * string :=
  if startswith (revision subject) (String.append (distroID subject) "/")
  then (revision subject, after_first "/" (revision subject))
  else (String.append (distroID subject) (String.append "/" (revision subject)),
        revision subject).

(** Lines 219-286: one turn of the loop over the monitoring subjects. *)
Definition monitor_downstream_body (subject : MonitoringSubjects) : M World unit :=
  if startswith (distroID subject) "Debian" then ret tt
  else
    w <- get ;;
    (if remote_exists (repo w) (distroID subject) then ret tt
     else raise (ValueError "Remote does not exist")) ;;;
    let (local_ref, remote_ref) := local_and_remote_ref subject in
    committed_date <- fetch_m (distroID subject) remote_ref (Depth 1) ;;
    (if (approx_date_since <=? committed_date)%Z
     then fetch_shallow_since (distroID subject) remote_ref
     else ret tt) ;;;
    modify (fun w =>
      if has_reference (repo w) local_ref then w
      else set_repo (create_tag (repo w) local_ref "FETCH_HEAD") w) ;;;
    monitor_subject subject (Some local_ref).

(** Lines 216-287, for the subjects the query of line 218 returns. The
    sessions [monitor_subject] opens commit on their own: what a turn wrote
    stays written when a later turn raises. *)
Definition monitor_downstream (subjects : list MonitoringSubjects) : M World unit :=
  for_each subjects monitor_downstream_body.

(** The patch ids recorded as missing for a subject. *)
Definition missing_ids (subject_id : Z)
    (rows : list MonitoringSubjectsMissingPatches) : gset Z :=
  list_to_set (map mp_patchID
    (filter (fun r => (mp_monitoringSubjectID r =? subject_id)%Z) rows)).

(** What isolation of failures asks of the loop: when the turn of a
    subject raises, the run goes on with the subjects after it. *)
Definition continues_after_failure : Prop :=
  forall (s : MonitoringSubjects) (rest : list MonitoringSubjects)
         (w w1 : World) (e : exn),
    monitor_downstream_body s w = (Raise e, w1) ->
    snd (monitor_downstream (s :: rest) w) = snd (monitor_downstream rest w1).

(** The records of a subject. *)
Definition records_of (subject_id : Z)
    (rows : list MonitoringSubjectsMissingPatches)
  : list MonitoringSubjectsMissingPatches :=
  filter (fun r => (mp_monitoringSubjectID r =? subject_id)%Z) rows.

End Backend.

Arguments repo {Repo} w.
Arguments patch_data {Repo} w.
Arguments missing_patches {Repo} w.
Arguments set_repo {Repo} g w.
Arguments set_missing {Repo} t w.

End Monitor.

(** * Predicates on texts used to state properties *)

Module Text.

(** Every character of [s] satisfies [P]. *)
Fixpoint all_chars (P : ascii -> bool) (s : string) : bool :=
  match s with
  | EmptyString => true
  | String c s' => P c && all_chars P s'
  end.

(** [s] has no line boundary of [str.splitlines]. *)
Definition one_line (s : string) : bool :=
  all_chars (fun c => negb (is_linebreak c)) s.

End Text.

(** * Predicates on commits used to state properties *)

Module LogNotions.

(** The commit is not the first of its history (ParseData.py, line 102). *)
Definition has_parent (c : ParseData.Commit) : bool :=
  negb (length (ParseData.parents c) =? 0)%nat.

End LogNotions.

(** * src/comma/downstream/monitor.py, the tracked revisions *)

Module Revisions.

(** The revisions tracked for a distro. *)
Definition revisions_of (distro_id : string) (rows : list MonitoringSubjects)
  : gset string :=
  list_to_set (map revision
    (filter (fun s => String.eqb (distroID s) distro_id) rows)).

Definition is_subject (distro_id rev : string) (s : MonitoringSubjects) : bool :=
  String.eqb (distroID s) distro_id && String.eqb (revision s) rev.

(** Lines 71-76: the tags that are kept. *)
Definition tag_policy (x : string) : bool :=
  contains "azure" x && negb (contains "edge" x) && negb (contains "cvm" x)
  && negb (contains "fde" x).

(** [l[-2:]] *)
Definition last_two {A : Type} (l : list A) : list A := drop (length l - 2) l.

(** Lines 69-78, on the output of [ls-remote]. *)
Definition select_tags (output : string) : list string :=
  let tag_lines := split (ascii_of_nat 10) output in
  let tag_names := map (after_first "/") tag_lines in
  last_two (filter tag_policy tag_names).

Section Selector.

(** Whether a query sees the rows its session has added, and the key the
    database gives a new row (the session factory and the schema are not in
    the source tree). *)
Variable autoflush : bool.
Variable new_id : list MonitoringSubjects -> Z.

(** Lines 27-37: the bulk delete of the distro's subjects whose revision is
    not in the list. *)
Definition delete_revisions (distro_id : string) (revs : list string)
    (rows : list MonitoringSubjects) : list MonitoringSubjects :=
  filter (fun s => negb (String.eqb (distroID s) distro_id &&
                         negb (bool_decide (revision s ∈ revs))))
         rows.

(** Lines 39-51: the rows the second session adds. *)
Fixpoint add_revisions (distro_id : string) (revs : list string)
    (table pending : list MonitoringSubjects) : list MonitoringSubjects :=
  match revs with
  | [] => pending
  | rev :: rest =>
      let visible := if autoflush then table ++ pending else table in
      match filter (is_subject distro_id rev) visible with
      | [] =>
          add_revisions distro_id rest table
            (pending ++ [{| monitoringSubjectID := new_id (table ++ pending);
                            distroID := distro_id; revision := rev |}])
      | _ :: _ => add_revisions distro_id rest table pending
      end
  end.

(** Lines 21-51. *)
Definition update_revisions_for_distro (distro_id : string) (revs : list string)
    (rows : list MonitoringSubjects) : list MonitoringSubjects :=
  let kept := delete_revisions distro_id revs rows in
  kept ++ add_revisions distro_id revs kept [].

(** [repo.git.ls_remote] on its arguments. *)
Variable Repo : Type.
Variable ls_remote : Repo -> list string -> result string.

(** Lines 54-79. *)
Definition update_tracked_revisions (distro_id : string) (repo : Repo)
  : M (list MonitoringSubjects) unit :=
  if startswith distro_id "Ubuntu" then
    bind (lift (ls_remote repo ["--t"; "--refs"; "--sort=v:refname"; distro_id]))
      (fun output =>
         modify (update_revisions_for_distro distro_id (select_tags output)))
  else ret tt.

(** Lines 212-214 of [monitor_downstream], for the ids of the Distros table. *)
Definition update_all_tracked_revisions (distros : list string) (repo : Repo)
  : M (list MonitoringSubjects) unit :=
  for_each distros (fun distro_id => update_tracked_revisions distro_id repo).

End Selector.

End Revisions.

(** * Conditions on a replay used to state properties *)

Module TrackerNotions.

(** The checkouts and the symbol extractions of a replay of [commits] from
    [prev], started at the reference [initial], all succeed. *)
Definition replay_succeeds (checkout_error : string -> option string)
    (ctags : string -> list string -> Z * string) (paths : list string)
    (commits : list string) (prev initial : string) : Prop :=
  checkout_error prev = None /\ checkout_error initial = None
  /\ fst (ctags prev paths) = 0%Z
  /\ forall c, c ∈ commits ->
       checkout_error c = None /\ fst (ctags c paths) = 0%Z.

(** The text has a character that is not a space. *)
Definition not_blank (s : string) : bool :=
  negb (Text.all_chars (fun c => Ascii.eqb c " ") s).

(** ** The turns of the replay loop that complete

    What decides how far a run of [map_symbols_to_patch] gets, read off the
    collaborators and the table the run starts with. *)

(** Checking out [ref] succeeds. *)
Definition checkout_ok (checkout_error : string -> option string)
    (ref : string) : bool :=
  match checkout_error ref with
  | None => true
  | Some _ => false
  end.

(** The symbol extraction command exits with status 0 at [ref]. *)
Definition extract_ok (ctags : string -> list string -> Z * string)
    (paths : list string) (ref : string) : bool :=
  (fst (ctags ref paths) =? 0)%Z.

(** [.one()] finds the row of commit [c]: the table has exactly one. *)
Definition has_one_row (table : list Database.PatchData) (c : string) : bool :=
  match filter (fun p => String.eqb (Database.commitID p) c) table with
  | [_] => true
  | _ => false
  end.

(** The turn of the loop for commit [c] completes: its checkout, its symbol
    extraction and the lookup of its row all succeed. *)
Definition step_ok (checkout_error : string -> option string)
    (ctags : string -> list string -> Z * string) (paths : list string)
    (table : list Database.PatchData) (c : string) : bool :=
  checkout_ok checkout_error c && extract_ok ctags paths c
  && has_one_row table c.

(** The length of the longest prefix of [l] whose elements all pass [ok]. *)
Fixpoint leading {A : Type} (ok : A -> bool) (l : list A) : nat :=
  match l with
  | [] => 0
  | x :: rest => if ok x then S (leading ok rest) else 0
  end.

(** The number of commits of the sequence whose turn completes before the
    body of the [try] ends: none when the checkout of [prev] or the
    extraction at [prev] fails, else the leading commits whose own turn
    completes. *)
Definition completed (checkout_error : string -> option string)
    (ctags : string -> list string -> Z * string) (paths : list string)
    (commits : list string) (prev : string)
    (table : list Database.PatchData) : nat :=
  if checkout_ok checkout_error prev && extract_ok ctags paths prev
  then leading (step_ok checkout_error ctags paths table) commits
  else 0.

(** The reference the work tree is at when the body of the [try] ends:
    [initial] when the checkout of [prev] fails; else the commit whose turn
    stopped the loop when its own checkout had succeeded; else the last
    reference checked out before it. *)
Definition stopped_at (checkout_error : string -> option string)
    (ctags : string -> list string -> Z * string) (paths : list string)
    (commits : list string) (prev initial : string)
    (table : list Database.PatchData) : string :=
  if checkout_ok checkout_error prev then
    let k := completed checkout_error ctags paths commits prev table in
    match commits !! k with
    | Some c =>
        if extract_ok ctags paths prev && checkout_ok checkout_error c
        then c
        else Symbols.predecessor prev commits k
    | None => Symbols.predecessor prev commits k
    end
  else initial.

End TrackerNotions.

(** * src/comma/util/symbols.py, the entry points *)

Module MissingCommits.

Import Symbols.

Local Open Scope py_scope.

Section Driver.

Variable checkout_error : string -> option string.
Variable ctags : string -> list string -> Z * string.
Variable iter : gset string -> list string.
Variable sql_ne_space : string -> bool.

(** [self.session.get_tracked_paths()] *)
Variable tracked_paths : list string.

(** The commits of the table, oldest first (lines 72-77). *)
Definition commits_by_time (table : list PatchData) : list string :=
  map commitID (order_by_commitTime table).

(** Lines 64-79. *)
Definition get_patch_symbols : M State unit :=
  st <- get ;;
  map_symbols_to_patch checkout_error ctags iter
    (commits_by_time (patch_table st)) tracked_paths default_prev_commit.

(** Lines 56-62; [content] is the text of [symbol_file]. *)
Definition get_missing_commits (content : string) : M State (list string) :=
  get_patch_symbols ;;;
  st <- get ;;
  ret (symbol_checker sql_ne_space content (patch_table st)).

End Driver.

End MissingCommits.

(** * Concrete histories, tables and backends used to run the code *)

Module Fixtures.

Import ParseData Symbols Monitor.

(** ** Symbol tracker: the history of the specification's example.
    The baseline has symbols a, b; commit c1 adds c; commit c2 removes b and
    adds d; at any other reference the extraction tool fails. *)
Definition ctags_ex (ref : string) (files : list string) : Z * string :=
  if String.eqb ref "base" then (0%Z, String.concat nl ["a"; "b"])
  else if String.eqb ref "c1" then (0%Z, String.concat nl ["a"; "b"; "c"])
  else if String.eqb ref "c2" then (0%Z, String.concat nl ["a"; "c"; "d"])
  else (1%Z, "").

Definition checkout_all (ref : string) : option string := None.

(** A work tree that cannot go back to master, as when the checkout would
    overwrite a file changed since the run started. *)
Definition checkout_not_master (ref : string) : option string :=
  if String.eqb ref "master"
  then Some "error: Your local changes would be overwritten by checkout"
  else None.

Definition rows_ex : list PatchData :=
  [ {| patchID := 1; commitID := "c1"; commitTime := 10; symbols := None |};
    {| patchID := 2; commitID := "c2"; commitTime := 20; symbols := None |};
    {| patchID := 3; commitID := "c3"; commitTime := 30; symbols := None |} ].

Definition tracker_state : State := {| head := "master"; patch_table := rows_ex |}.

Definition paths_ex : list string := ["drivers/hv"].

(** Two commits whose ids sort against their commit times, each with a
    symbol the reference list lacks. *)
Definition rows_time_vs_id : list PatchData :=
  [ {| patchID := 1; commitID := "b"; commitTime := 1; symbols := Some "d" |};
    {| patchID := 2; commitID := "a"; commitTime := 2; symbols := Some "e" |} ].

Definition reference_file : string := String.concat nl ["a"; "c"].

(** ** Monitor: a repository that records what was fetched and tagged. *)
Record ToyRepo : Type := {
  fetched : list (string * string * FetchOpt);
  tags : list string
}.

Definition toy_fetch (g : ToyRepo) (remote ref : string) (opt : FetchOpt)
  : result Z * ToyRepo :=
  let failure :=
    if String.eqb remote "Ubuntu-offline"
    then Some "fatal: unable to access the remote: Could not resolve host"
    else match opt with
         | ShallowSince _ =>
             if String.eqb remote "Ubuntu-ado"
             then Some "fatal: Server does not support --shallow-since"
             else if String.eqb remote "Ubuntu-auth"
             then Some "fatal: Authentication failed"
             else None
         | _ => None
         end in
  match failure with
  | Some stderr => (Raise (GitCommandError stderr), g)
  | None =>
      (Ok 100%Z, {| fetched := fetched g ++ [(remote, ref, opt)]; tags := tags g |})
  end.

(** Upstream has c1, c2, c3 on the tracked paths; the three-dot comparison
    leaves c2, c3 and c9 (off the tracked paths) on the upstream side; for
    the reference Ubuntu-empty/v1 it leaves nothing. *)
Definition toy_log (g : ToyRepo) (args : list string) : result string :=
  if bool_decide ("--cherry-pick" ∈ args) then
    if bool_decide ("Ubuntu-empty/v1...origin/master" ∈ args) then Ok ""
    else Ok (String.concat nl ["c2"; "c3"; "c9"])
  else Ok (String.concat nl ["c1"; "c2"; "c3"]).

Definition toy_remote_exists (g : ToyRepo) (name : string) : bool := true.

Definition toy_has_reference (g : ToyRepo) (name : string) : bool :=
  bool_decide (name ∈ tags g).

Definition toy_create_tag (g : ToyRepo) (name target : string) : ToyRepo :=
  {| fetched := fetched g; tags := tags g ++ [name] |}.

(** No downstream patch matches anything. *)
Definition toy_process_commits (g : ToyRepo) (revision : string) (since : Z)
  : result (list unit) := Ok [].

Definition toy_patch_matches (ds : list unit) (p : PatchData) : bool := false.

Definition toy_since : string := "4 years ago".
Definition toy_approx_date_since : Z := 50.
Definition toy_paths : list string := ["drivers/hv"].

Definition toy_world : World ToyRepo :=
  {| repo := {| fetched := []; tags := [] |};
     patch_data := rows_ex;
     missing_patches :=
       [ {| mp_monitoringSubjectID := 3; mp_patchID := 1 |} ] |}.

Definition offline_subject : MonitoringSubjects :=
  {| monitoringSubjectID := 1; distroID := "Ubuntu-offline"; revision := "v1" |}.

Definition healthy_subject : MonitoringSubjects :=
  {| monitoringSubjectID := 2; distroID := "Ubuntu-ok"; revision := "v1" |}.

Definition empty_subject : MonitoringSubjects :=
  {| monitoringSubjectID := 3; distroID := "Ubuntu-empty"; revision := "v1" |}.

Definition toy_monitor_subject :=
  monitor_subject toy_since toy_paths ToyRepo toy_log unit
    toy_process_commits toy_patch_matches true.

Definition toy_monitor_downstream_body :=
  monitor_downstream_body toy_since toy_approx_date_since toy_paths ToyRepo
    toy_log toy_remote_exists toy_fetch toy_has_reference toy_create_tag unit
    toy_process_commits toy_patch_matches true.

Definition toy_monitor_downstream :=
  monitor_downstream toy_since toy_approx_date_since toy_paths ToyRepo
    toy_log toy_remote_exists toy_fetch toy_has_reference toy_create_tag unit
    toy_process_commits toy_patch_matches true.

Definition toy_fetch_shallow_since :=
  fetch_shallow_since toy_since ToyRepo toy_fetch.

(** ** parse_log: a downstream commit whose BugLink line has no space, and
    an upstream commit with a "fixes:" line that has no second word. *)
Definition buglink_commit : Commit :=
  {| hexsha := "f00"; author_name := "A"; author_email := "a@example.com";
     committed_date := 7; authored_date := 6;
     message := String.concat nl
       ["UBUNTU: fix the driver"; "";
        "BugLink:https://bugs.launchpad.net/bugs/1"; "Signed-off-by: A"];
     parents := ["e00"] |}.

Definition fixes_commit : Commit :=
  {| hexsha := "f01"; author_name := "A"; author_email := "a@example.com";
     committed_date := 7; authored_date := 6;
     message := String.concat nl
       ["hv: fix the driver"; ""; "Fixes:"; "Fixes: abc123 (hv: add the driver)"];
     parents := ["e01"] |}.

Definition toy_parse_log :=
  parse_log (list Patch) unit
    (fun db id _ => bool_decide (id ∈ map p_commit_id db))
    (fun p db => db ++ [p])
    (fun _ _ p db => db ++ [p])
    (fun _ _ _ => None)
    (fun _ => []).

End Fixtures.

(** * Further concrete inputs *)

Module MoreFixtures.

Import ParseData Symbols Monitor Fixtures.

(** The first commit of a history: it has no parent. *)
Definition root_commit : Commit :=
  {| hexsha := "r00"; author_name := "A"; author_email := "a@example.com";
     committed_date := 1; authored_date := 1;
     message := "Initial commit";
     parents := [] |}.

(** A database that is the list of the stored patches, with no matcher. *)
Definition list_check (db : list Patch) (id : string) (distro : option Distro)
  : bool := bool_decide (id ∈ map p_commit_id db).

Definition list_insert_upstream (p : Patch) (db : list Patch) : list Patch :=
  db ++ [p].

Definition list_insertInto (m : unit) (distro : option Distro) (p : Patch)
    (db : list Patch) : list Patch := db ++ [p].

Definition no_match (db : list Patch) (p : Patch) (conf : confidence_weight)
  : option unit := None.

Definition no_diff (c : Commit) : list Diff := [].

(** ** Tracked revisions: a remote with four tags, listed in version
    order, and a table that tracks an older tag of the distro. *)
Definition tag_line (sha name : string) : string :=
  String.append sha (String (ascii_of_nat 9) (String.append "refs/tags/" name)).

Definition tags_listing : string :=
  String.concat nl
    [ tag_line "a1" "v1-azure"; tag_line "a2" "v2-azure-edge";
      tag_line "a3" "v3-azure"; tag_line "a4" "v4-azure-cvm" ].

Definition toy_ls_remote (g : unit) (args : list string) : result string :=
  if bool_decide ("Ubuntu-offline" ∈ args)
  then Raise (GitCommandError "fatal: Could not resolve host")
  else Ok tags_listing.

Definition next_key (rows : list MonitoringSubjects) : Z :=
  (1 + fold_right Z.max 0 (map monitoringSubjectID rows))%Z.

Definition subjects_ex : list MonitoringSubjects :=
  [ {| monitoringSubjectID := 1; distroID := "Ubuntu18.04";
       revision := "tags/v0-azure" |};
    {| monitoringSubjectID := 2; distroID := "Ubuntu18.04";
       revision := "tags/v1-azure" |};
    {| monitoringSubjectID := 3; distroID := "Debian9"; revision := "master" |} ].

(** ** Monitor: a Debian subject, and a subject whose revision already
    carries the name of its distro. *)
Definition debian_subject : MonitoringSubjects :=
  {| monitoringSubjectID := 4; distroID := "Debian9"; revision := "master" |}.

Definition prefixed_subject : MonitoringSubjects :=
  {| monitoringSubjectID := 5; distroID := "Ubuntu-ok";
     revision := "Ubuntu-ok/v1" |}.

End MoreFixtures.

(** * Properties *)

(** ** Python primitives *)

Section PyFacts.

Lemma split_nonempty (sep : ascii) (s : string) : split sep s ≠ [].
Proof.
  destruct s as [|c s]; simpl; [done|].
  destruct (Ascii.eqb c sep); [done|]. by destruct (split sep s).
Qed.

Lemma contains_cons_false (needle : string) (c : ascii) (s : string) :
  contains needle (String c s) = false → contains needle s = false.
Proof. simpl. intros H. apply orb_false_elim in H. tauto. Qed.

Lemma split_no_sep (sep : ascii) (s : string) :
  contains (String sep EmptyString) s = false → split sep s = [s].
Proof.
  induction s as [|c s IH]; intros H; [done|].
  simpl. destruct (Ascii.eqb c sep) eqn:E.
  - exfalso. simpl in H. apply orb_false_elim in H as [H _].
    rewrite Ascii.eqb_sym in E.
    destruct (ascii_dec sep c) as [->|Hne].
    + destruct s; simpl in H; congruence.
    + apply Ascii.eqb_eq in E. done.
  - rewrite IH; [done|]. by eapply contains_cons_false.
Qed.

Lemma index_head (A : Type) (x : A) (l : list A) : index (x :: l) 0 = Ok x.
Proof. done. Qed.

Lemma index_second_guarded (A : Type) (l : list A) :
  (1 <? length l)%nat = true → ∃ x, index l 1 = Ok x.
Proof.
  destruct l as [|a [|b l]]; simpl; intros H; try discriminate. by exists b.
Qed.

End PyFacts.

(** ** parse_log *)

Section ParseLogProofs.

Import ParseData.

Lemma fixed_patches_loop_ok (lines acc : list string) :
  ∃ out, fixed_patches_loop lines acc = Ok out.
Proof.
  revert acc. induction lines as [|line rest IH]; intros acc; simpl; [by eexists|].
  destruct (1 <? length (split " " line))%nat eqn:E; [|apply IH].
  destruct (index_second_guarded _ _ E) as [w ->]. simpl. apply IH.
Qed.

Lemma extract_fixed_patches_ok (desc_lines : list string) :
  ∃ s, extract_fixed_patches desc_lines = Ok s.
Proof.
  unfold extract_fixed_patches.
  destruct (fixed_patches_loop_ok
              (filter (λ x, startswith (lower (strip x)) "fixes:") desc_lines) [])
    as [out ->].
  simpl. by eexists.
Qed.

Lemma split_message_subject (msg : string) :
  ∃ subject rest, split_message msg = subject :: rest.
Proof.
  unfold split_message. pose proof (split_nonempty newline msg) as H.
  destruct (split newline msg) as [|l ls]; [done|]. simpl. by eexists _, _.
Qed.

Lemma extract_buglink_no_space (desc_lines : list string) (line : string)
    (rest : list string) :
  filter (λ x, startswith x "BugLink:") desc_lines = line :: rest →
  contains " " line = false →
  extract_buglink desc_lines = Raise (IndexError "list index out of range").
Proof.
  intros Hf Hs. unfold extract_buglink. rewrite Hf. simpl.
  by rewrite (split_no_sep " " line Hs).
Qed.

(** C10. A downstream (Ubuntu-family) commit whose first BugLink line has
    no space makes [parse_commit], and with it [parse_log], raise an
    IndexError: the second word is taken without a length check. The
    extraction of the "fixes:" references checks the length first and never
    raises, and parsing an upstream commit never raises. *)
Theorem buglink_unguarded_fixes_guarded :
  (∀ (indicator : string) (c : Commit) (line : string) (rest : list string),
      startswith indicator "Ub" = true →
      filter (λ x, startswith x "BugLink:")
             (description_lines (split_message (message c))) = line :: rest →
      contains " " line = false →
      parse_commit indicator c = Raise (IndexError "list index out of range"))
  ∧ (∀ desc_lines : list string, is_ok (extract_fixed_patches desc_lines) = true)
  ∧ (∀ c : Commit, is_ok (parse_commit "Upstream" c) = true).
Proof.
  split; [|split].
  - intros indicator c line rest Hub Hf Hs. unfold parse_commit.
    destruct (split_message_subject (message c)) as (subject & ls & Hsplit).
    rewrite Hsplit in *. rewrite index_head. simpl rbind at 1.
    assert (Hup : String.eqb indicator "Upstream" = false).
    { apply String.eqb_neq. intros ->. discriminate Hub. }
    rewrite Hup. simpl andb. cbv iota. simpl rbind at 1.
    rewrite Hub. by rewrite (extract_buglink_no_space _ _ _ Hf Hs).
  - intros desc_lines. by destruct (extract_fixed_patches_ok desc_lines) as [s ->].
  - intros c. unfold parse_commit.
    destruct (split_message_subject (message c)) as (subject & ls & Hsplit).
    rewrite Hsplit. rewrite index_head. simpl rbind at 1.
    match goal with |- context [if ?b then _ else _] => destruct b end.
    + destruct (extract_fixed_patches_ok (description_lines (subject :: ls)))
        as [s ->]. done.
    + done.
Qed.

Lemma buglink_unguarded_witness :
  parse_commit "Ubuntu" Fixtures.buglink_commit
    = Raise (IndexError "list index out of range")
  ∧ fst (Fixtures.toy_parse_log [Fixtures.fixes_commit; Fixtures.buglink_commit]
           None "Ubuntu" [])
    = Raise (IndexError "list index out of range")
  ∧ is_ok (parse_commit "Upstream" Fixtures.fixes_commit) = true.
Proof.
  destruct buglink_unguarded_fixes_guarded as (Hbug & _ & Hup).
  split; [|split].
  - apply (Hbug "Ubuntu" Fixtures.buglink_commit
             "BugLink:https://bugs.launchpad.net/bugs/1" []);
      vm_compute; reflexivity.
  - vm_compute. reflexivity.
  - apply Hup.
Defined.

End ParseLogProofs.

(** ** Confidence score *)

Section ConfidenceProofs.

Import ParseData.

Local Open Scope Q_scope.

Lemma dot_bounds (ws ss : list Q) :
  Forall in_unit ws → Forall in_unit ss → length ws = length ss →
  0 <= dot ws ss ∧ dot ws ss <= Qsum ws.
Proof.
  intros Hw. revert ss. induction Hw as [|w ws [Hw0 Hw1] _ IH]; intros ss Hs Hlen.
  - simpl. split; apply Qle_refl.
  - destruct Hs as [|s ss [Hs0 Hs1] Hs]; [done|].
    simpl in *. destruct (IH ss Hs) as [IH0 IH1]; [by injection Hlen|].
    assert (0 <= w * s) by (apply Qmult_le_0_compat; done).
    assert (w * s <= w) by nra.
    split; lra.
Qed.

Lemma dot_ones (ws : list Q) : dot ws (repeat 1 (length ws)) == Qsum ws.
Proof.
  induction ws as [|w ws IH]; simpl; [reflexivity|]. rewrite IH. ring.
Qed.

Lemma dot_zeros (n : nat) (ss : list Q) : dot (repeat 0 n) ss == 0.
Proof.
  revert ss. induction n as [|n IH]; intros [|s ss]; simpl; try reflexivity.
  rewrite IH. ring.
Qed.

Lemma dot_one_hot (n k : nat) (ss : list Q) :
  (k < n)%nat → length ss = n → dot (one_hot n k) ss == nth k ss 0.
Proof.
  revert k ss. induction n as [|n IH]; intros k ss Hk Hlen; [lia|].
  destruct ss as [|s ss]; [done|]. simpl in Hlen.
  destruct k as [|k]; simpl.
  - rewrite dot_zeros. ring.
  - rewrite IH; [ring|lia|lia].
Qed.

Lemma dot_Qeq (ws ws' ss : list Q) :
  Forall2 Qeq ws ws' → dot ws ss == dot ws' ss.
Proof.
  intros H. revert ss. induction H as [|w w' ws ws' Hw _ IH]; intros ss;
    [reflexivity|].
  destruct ss as [|s ss]; simpl; [reflexivity|]. by rewrite Hw, IH.
Qed.

(** C7. With weights in [0,1] that sum to 1 and five signals in [0,1] the
    score, the dot product of the two vectors, is in [0,1]; five signals
    equal to 1 score exactly the sum of the weights, 1; a weight vector that
    is 1 at index k and 0 elsewhere scores exactly the k-th signal; the two
    vectors [insert_patch] builds have entries in [0,1] that sum to 1. *)
Theorem confidence_score_bounds :
  (∀ (c : confidence_weight) (signals : list Q),
      valid_weights (weights c) → valid_signals signals →
      in_unit (confidence_score c signals))
  ∧ (∀ c : confidence_weight,
      Qsum (weights c) == 1 → confidence_score c [1; 1; 1; 1; 1] == 1)
  ∧ (∀ (c : confidence_weight) (k : nat) (signals : list Q),
      (k < 5)%nat → Forall2 Qeq (weights c) (one_hot 5 k) →
      length signals = 5%nat →
      confidence_score c signals == nth k signals 0)
  ∧ valid_weights (weights conf_ubuntu_debian)
  ∧ valid_weights (weights conf_suse).
Proof.
  split; [|split; [|split; [|split]]].
  - intros c signals (Hlen & Hw & Hsum) (Hlen' & Hs).
    destruct (dot_bounds (weights c) signals Hw Hs) as [H0 H1]; [congruence|].
    unfold confidence_score, in_unit. rewrite Hsum in H1. done.
  - intros c Hsum. unfold confidence_score.
    change [1; 1; 1; 1; 1] with (repeat 1 (length (weights c))).
    by rewrite dot_ones.
  - intros c k signals Hk Hhot Hlen. unfold confidence_score.
    rewrite (dot_Qeq _ _ _ Hhot). by apply dot_one_hot.
  - split; [done|]. split; [|reflexivity].
    repeat constructor; discriminate.
  - split; [done|]. split; [|reflexivity].
    repeat constructor; discriminate.
Qed.

Lemma confidence_score_witness :
  in_unit (confidence_score conf_ubuntu_debian [1; 0.5; 0; 0.25; 1])
  ∧ confidence_score conf_ubuntu_debian [1; 1; 1; 1; 1] == 1
  ∧ confidence_score conf_suse [0.3; 0.7; 0.1; 0; 1] == 0.7.
Proof.
  destruct confidence_score_bounds as (Hb & Hones & Hhot & Hu & Hs).
  split; [|split].
  - apply Hb; [exact Hu|]. split; [reflexivity|].
    repeat constructor; discriminate.
  - apply Hones. reflexivity.
  - apply (Hhot conf_suse 1%nat [0.3; 0.7; 0.1; 0; 1]).
    + lia.
    + repeat constructor.
    + reflexivity.
Defined.

End ConfidenceProofs.

(** ** The reconciler of monitor_subject *)

Section ReconcilerProofs.

Import Monitor.

Variable autoflush : bool.

Abbreviation Row := MonitoringSubjectsMissingPatches.

Lemma is_record_spec (sid x : Z) (r : Row) :
  is_record sid x r ↔ mp_monitoringSubjectID r = sid ∧ mp_patchID r = x.
Proof.
  unfold is_record. rewrite andb_True, !Is_true_true, !Z.eqb_eq. tauto.
Qed.

Lemma elem_of_missing_ids (sid x : Z) (rows : list Row) :
  x ∈ missing_ids sid rows ↔
  ∃ r, r ∈ rows ∧ mp_monitoringSubjectID r = sid ∧ mp_patchID r = x.
Proof.
  unfold missing_ids. rewrite elem_of_list_to_set.
  change (map mp_patchID) with (fmap (M:=list) mp_patchID).
  rewrite list_elem_of_fmap. split.
  - intros (r & -> & Hr). apply list_elem_of_filter in Hr as [Hs Hr].
    apply Is_true_true, Z.eqb_eq in Hs. eauto.
  - intros (r & Hr & Hs & Hx). exists r. split; [done|].
    apply list_elem_of_filter. split; [|done].
    by apply Is_true_true, Z.eqb_eq.
Qed.

Lemma elem_of_delete_present (sid : Z) (S : list Z) (rows : list Row) (r : Row) :
  r ∈ delete_present sid S rows ↔
  r ∈ rows ∧ (mp_monitoringSubjectID r = sid → mp_patchID r ∈ S).
Proof.
  unfold delete_present. rewrite list_elem_of_filter.
  rewrite negb_True, andb_True, negb_True, bool_decide_spec, Is_true_true, Z.eqb_eq.
  split.
  - intros [Hn Hr]. split; [done|]. intros Hs.
    destruct (decide (mp_patchID r ∈ S)); [done|]. exfalso. apply Hn. tauto.
  - intros [Hr Himp]. split; [|done]. intros [Hs Hn]. auto.
Qed.

Lemma add_loop_pending (sid : Z) (S : list Z) (table pending : list Row) (r : Row) :
  r ∈ pending → r ∈ add_loop autoflush sid S table pending.
Proof.
  revert pending. induction S as [|x S IH]; intros pending Hr; simpl; [done|].
  destruct (filter _ _); apply IH; [|done].
  apply elem_of_app. by left.
Qed.

Lemma add_loop_sound (sid : Z) (S : list Z) (table pending : list Row) (r : Row) :
  r ∈ add_loop autoflush sid S table pending →
  r ∈ pending ∨ (mp_monitoringSubjectID r = sid ∧ mp_patchID r ∈ S).
Proof.
  revert pending. induction S as [|x S IH]; intros pending Hr; simpl in Hr; [by left|].
  destruct (filter _ _).
  - apply IH in Hr as [Hr|[? ?]].
    + apply elem_of_app in Hr as [Hr|Hr]; [by left|].
      apply list_elem_of_singleton in Hr as ->. right. simpl. split; [done|].
      apply elem_of_cons. by left.
    + right. split; [done|]. apply elem_of_cons. by right.
  - apply IH in Hr as [Hr|[? ?]]; [by left|].
    right. split; [done|]. apply elem_of_cons. by right.
Qed.

Lemma add_loop_complete (sid : Z) (S : list Z) (table pending : list Row) (x : Z) :
  x ∈ S →
  ∃ r, (r ∈ table ∨ r ∈ add_loop autoflush sid S table pending) ∧
       mp_monitoringSubjectID r = sid ∧ mp_patchID r = x.
Proof.
  revert pending. induction S as [|y S IH]; intros pending Hx.
  - by apply elem_of_nil in Hx.
  - apply elem_of_cons in Hx as [->|Hx];
      [|simpl; destruct (filter _ _); by apply IH].
    simpl. destruct (filter _ _) as [|r l] eqn:Hf.
    + exists {| mp_monitoringSubjectID := sid; mp_patchID := y |}.
      split; [|done]. right. apply add_loop_pending.
      apply elem_of_app. right. by apply list_elem_of_singleton.
    + assert (Hr : r ∈ filter (λ r, is_record sid y r)
                       (if autoflush then table ++ pending else table)).
      { rewrite Hf. apply elem_of_cons. by left. }
      apply list_elem_of_filter in Hr as [Hrec Hr].
      apply is_record_spec in Hrec. exists r. split; [|done].
      assert (r ∈ table ∨ r ∈ pending) as [?|?]; [|by left|].
      { clear -Hr. destruct autoflush; [apply elem_of_app in Hr|]; tauto. }
      right. by apply add_loop_pending.
Qed.

Lemma add_loop_nothing (sid : Z) (S : list Z) (table : list Row) :
  (∀ x, x ∈ S → ∃ r, r ∈ table ∧ mp_monitoringSubjectID r = sid ∧ mp_patchID r = x) →
  add_loop autoflush sid S table [] = [].
Proof.
  induction S as [|y S IH]; intros Hall; simpl; [done|].
  destruct (Hall y) as (r & Hr & Hrec); [apply elem_of_cons; by left|].
  destruct (filter _ _) as [|r' l] eqn:Hf.
  - exfalso. eapply (filter_nil_not_elem_of _ _ r); [exact Hf| |].
    + by apply is_record_spec.
    + clear -Hr. destruct autoflush; [|done]. apply elem_of_app. by left.
  - apply IH. intros x Hx. apply Hall. apply elem_of_cons. by right.
Qed.

Lemma delete_present_nothing (sid : Z) (S : list Z) (rows : list Row) :
  (∀ r, r ∈ rows → mp_monitoringSubjectID r = sid → mp_patchID r ∈ S) →
  delete_present sid S rows = rows.
Proof.
  induction rows as [|r rows IH]; intros Hall; [done|].
  unfold delete_present in *. rewrite filter_cons.
  destruct (decide _) as [_|Hn].
  - f_equal. apply IH. intros r' Hr'. apply Hall. apply elem_of_cons. by right.
  - exfalso. apply Hn. rewrite negb_True, andb_True, negb_True, bool_decide_spec.
    intros [Hs Hnot]. apply Hnot. apply Hall; [apply elem_of_cons; by left|].
    by apply Is_true_true, Z.eqb_eq in Hs.
Qed.

Lemma elem_of_reconcile (sid : Z) (S : list Z) (rows : list Row) (r : Row) :
  r ∈ reconcile autoflush sid S rows →
  (r ∈ rows ∨ mp_monitoringSubjectID r = sid) ∧
  (mp_monitoringSubjectID r = sid → mp_patchID r ∈ S).
Proof.
  unfold reconcile, add_missing. intros Hr.
  apply elem_of_app in Hr as [Hr|Hr].
  - apply elem_of_delete_present in Hr as [? ?]. split; [by left|done].
  - apply add_loop_sound in Hr as [Hr|[? ?]]; [by apply elem_of_nil in Hr|].
    split; [by right|done].
Qed.

Lemma records_of_delete_present (sid sid' : Z) (S : list Z) (rows : list Row) :
  sid' ≠ sid →
  records_of sid' (delete_present sid S rows) = records_of sid' rows.
Proof.
  intros Hne. unfold records_of, delete_present.
  induction rows as [|r rows IH]; [done|].
  rewrite !filter_cons. destruct (decide (Is_true (mp_monitoringSubjectID r =? sid')%Z)) as [Hs|Hs].
  - apply Is_true_true, Z.eqb_eq in Hs.
    destruct (decide _) as [_|Hn].
    + rewrite filter_cons. destruct (decide _) as [_|Hn']; [by rewrite IH|].
      exfalso. apply Hn'. by apply Is_true_true, Z.eqb_eq.
    + exfalso. apply Hn. rewrite negb_True, andb_True, Is_true_true, Z.eqb_eq.
      intros [? _]. congruence.
  - destruct (decide _); [|done].
    rewrite filter_cons. by destruct (decide _).
Qed.

Lemma records_of_add_loop (sid sid' : Z) (S : list Z) (table pending : list Row) :
  sid' ≠ sid →
  records_of sid' (add_loop autoflush sid S table pending) = records_of sid' pending.
Proof.
  intros Hne. revert pending. induction S as [|x S IH]; intros pending; simpl; [done|].
  destruct (filter _ _); rewrite IH; [|done].
  unfold records_of. rewrite filter_app, filter_cons. simpl.
  destruct (decide _) as [Hs|_]; [|by rewrite filter_nil, app_nil_r].
  apply Is_true_true, Z.eqb_eq in Hs. congruence.
Qed.

Lemma records_of_reconcile (sid sid' : Z) (S : list Z) (rows : list Row) :
  sid' ≠ sid →
  records_of sid' (reconcile autoflush sid S rows) = records_of sid' rows.
Proof.
  intros Hne. unfold reconcile, add_missing.
  unfold records_of at 1. rewrite filter_app.
  fold (records_of sid' (delete_present sid S rows)).
  fold (records_of sid' (add_loop autoflush sid S (delete_present sid S rows) [])).
  rewrite records_of_delete_present, records_of_add_loop by done.
  unfold records_of at 2. by rewrite filter_nil, app_nil_r.
Qed.

(** C1. After the two phases of the reconciler the patch ids recorded as
    missing for the subject are exactly those of the computed list, whatever
    was recorded before and whether or not the adding session sees its own
    uncommitted rows; running the two phases again with the same list leaves
    the table as it is. *)
Theorem reconcile_set_equality (sid : Z) (S : list Z) (rows : list Row) :
  missing_ids sid (reconcile autoflush sid S rows) = list_to_set S
  ∧ reconcile autoflush sid S (reconcile autoflush sid S rows)
    = reconcile autoflush sid S rows.
Proof.
  assert (Hset : missing_ids sid (reconcile autoflush sid S rows) = list_to_set S).
  { apply set_eq. intros x. rewrite elem_of_missing_ids, elem_of_list_to_set. split.
    - intros (r & Hr & Hs & <-). by apply elem_of_reconcile in Hr as [_ Hr]; auto.
    - intros Hx. unfold reconcile, add_missing.
      destruct (add_loop_complete sid S (delete_present sid S rows) [] x Hx)
        as (r & Hr & Hrec).
      exists r. split; [|done]. apply elem_of_app. tauto. }
  split; [done|].
  unfold reconcile at 1. unfold add_missing at 1.
  rewrite delete_present_nothing.
  - rewrite add_loop_nothing; [by rewrite app_nil_r|].
    intros x Hx. rewrite <- (elem_of_list_to_set (C:=gset Z)), <- Hset in Hx.
    by apply elem_of_missing_ids in Hx.
  - intros r Hr Hs. by apply elem_of_reconcile in Hr as [_ Hr]; auto.
Qed.

End ReconcilerProofs.

(** ** monitor_subject and monitor_downstream *)

Section MonitorProofs.

Import Monitor.

Variable since : string.
Variable approx_date_since : Z.
Variable tracked_paths : list string.
Variable Repo : Type.
Variable git_log : Repo → list string → result string.
Variable remote_exists : Repo → string → bool.
Variable fetch : Repo → string → string → FetchOpt → result Z * Repo.
Variable has_reference : Repo → string → bool.
Variable create_tag : Repo → string → string → Repo.
Variable DownstreamPatch : Type.
Variable process_commits : Repo → string → Z → result (list DownstreamPatch).
Variable patch_matches : list DownstreamPatch → PatchData → bool.
Variable autoflush : bool.

#[local] Abbreviation detect :=
  (missing_cherries since tracked_paths Repo git_log).
#[local] Abbreviation subject_run :=
  (monitor_subject since tracked_paths Repo git_log DownstreamPatch
     process_commits patch_matches autoflush).
#[local] Abbreviation shallow :=
  (fetch_shallow_since since Repo fetch).
#[local] Abbreviation body :=
  (monitor_downstream_body since approx_date_since tracked_paths Repo git_log
     remote_exists fetch has_reference create_tag DownstreamPatch
     process_commits patch_matches autoflush).
#[local] Abbreviation run :=
  (monitor_downstream since approx_date_since tracked_paths Repo git_log
     remote_exists fetch has_reference create_tag DownstreamPatch
     process_commits patch_matches autoflush).

Ltac unfold_monad :=
  unfold bind, ret, raise, lift, get, gets, modify, try_except in *.

Lemma string_length_append (s1 s2 : string) :
  String.length (String.append s1 s2) = (String.length s1 + String.length s2)%nat.
Proof. induction s1 as [|c s1 IH]; simpl; [done|]. by rewrite IH. Qed.

(** The detector reads the repository and changes nothing. *)
Lemma missing_cherries_state (reference : string) (w : World Repo) :
  snd (detect reference w) = w.
Proof.
  unfold missing_cherries. unfold_monad.
  destruct (git_log (repo w) _); [|done]. by destruct (git_log (repo w) _).
Qed.

(** C2. When both log queries succeed the detector returns the
    intersection of the commits of the three-dot query (no merges, right
    side only, cherry-pick equivalence, since the window start, no paths)
    and the commits of the upstream query (no merges, since the window
    start, origin/master, the tracked paths), and leaves the state as it
    is. Only the upstream query carries the path separator and the tracked
    paths. *)
Theorem detector_is_intersection (reference U_out M_out : string) (w : World Repo) :
  git_log (repo w)
    (["--no-merges"; "--pretty=format:%H"; String.append "--since=" since;
      "origin/master"; "--"] ++ tracked_paths) = Ok U_out →
  git_log (repo w)
    ["--no-merges"; "--right-only"; "--cherry-pick"; "--pretty=format:%H";
     String.append "--since=" since;
     String.append reference "...origin/master"] = Ok M_out →
  detect reference w
    = (Ok (line_set M_out ∩ line_set U_out), w)
  ∧ (∀ c : string,
       c ∈ (line_set M_out ∩ line_set U_out)
       ↔ (c ∈ splitlines M_out ∧ c ∈ splitlines U_out))
  ∧ ("--" ∉ cherry_log_args since reference)
  ∧ (∀ p : string, p ∈ tracked_paths → p ∈ upstream_log_args since tracked_paths).
Proof.
  intros HU HM. split; [|split; [|split]].
  - unfold missing_cherries, upstream_log_args, cherry_log_args. unfold_monad.
    by rewrite HU, HM.
  - intros c. unfold line_set. by rewrite elem_of_intersection, !elem_of_list_to_set.
  - unfold cherry_log_args. rewrite !elem_of_cons, elem_of_nil.
    intros [H|[H|[H|[H|[H|[H|H]]]]]]; try done.
    apply (f_equal String.length) in H.
      rewrite string_length_append in H. simpl in H. lia.
  - intros p Hp. unfold upstream_log_args. apply elem_of_app. by right.
Qed.

Lemma candidate_patches_nil (cherries : gset string) (rows : list PatchData) :
  (cherries = ∅ ∨ ∀ p, p ∈ rows → commitID p ∉ cherries) →
  candidate_patches cherries rows = [].
Proof.
  intros H. unfold candidate_patches.
  assert (Hf : filter (λ p, Is_true (bool_decide (commitID p ∈ cherries))) rows = []).
  { induction rows as [|p rows IH]; [done|].
    rewrite filter_cons. destruct (decide _) as [Hin|_].
    - exfalso. apply bool_decide_unpack in Hin.
      destruct H as [->|H]; [set_solver|].
      apply (H p); [apply elem_of_cons; by left|done].
    - apply IH. destruct H as [H|H]; [by left|right].
      intros q Hq. apply H. apply elem_of_cons. by right. }
  by rewrite Hf.
Qed.

(** C9. When the detector finds no candidate, or no PatchData row has the
    commit of a candidate, [monitor_subject] raises the ValueError of [min]
    on an empty sequence and the state, with every record of the subject,
    is what it was: neither phase of the reconciler has run. *)
Theorem empty_candidates_raise (subject : MonitoringSubjects)
    (reference : option string) (cherries : gset string) (w : World Repo) :
  detect (default (revision subject) reference) w = (Ok cherries, w) →
  (cherries = ∅ ∨ ∀ p, p ∈ patch_data w → commitID p ∉ cherries) →
  subject_run subject reference w
    = (Raise (ValueError "min() arg is an empty sequence"), w)
  ∧ records_of (monitoringSubjectID subject)
      (missing_patches (snd (subject_run subject reference w)))
    = records_of (monitoringSubjectID subject) (missing_patches w).
Proof.
  intros Hd Hempty.
  assert (Hrun : subject_run subject reference w
                 = (Raise (ValueError "min() arg is an empty sequence"), w)).
  { unfold monitor_subject. unfold bind at 1. rewrite Hd.
    unfold_monad. by rewrite (candidate_patches_nil _ _ Hempty). }
  split; [done|]. by rewrite Hrun.
Qed.

(** C6. When the fetch with shallow-since raises a GitCommandError whose
    error output has the marker of the unsupported option, the fetch is
    made again without the option and its outcome is the outcome of the
    step, so no error comes out when that fetch succeeds; any other
    exception of the shallow-since fetch comes out of the step as it is. *)
Theorem shallow_since_fallback (remote remote_ref : string) (w : World Repo) :
  (∀ (stderr : string) (g1 : Repo),
      fetch (repo w) remote remote_ref (ShallowSince since)
        = (Raise (GitCommandError stderr), g1) →
      contains shallow_since_unsupported stderr = true →
      shallow remote remote_ref w
        = (match fetch g1 remote remote_ref NoOpt with
           | (Ok _, g2) => (Ok tt, set_repo g2 w)
           | (Raise e, g2) => (Raise e, set_repo g2 w)
           end)
      ∧ (∀ (d : Z) (g2 : Repo),
           fetch g1 remote remote_ref NoOpt = (Ok d, g2) →
           shallow remote remote_ref w = (Ok tt, set_repo g2 w)))
  ∧ (∀ (e : exn) (g1 : Repo),
      fetch (repo w) remote remote_ref (ShallowSince since) = (Raise e, g1) →
      (∀ stderr, e = GitCommandError stderr →
                 contains shallow_since_unsupported stderr = false) →
      shallow remote remote_ref w = (Raise e, set_repo g1 w)).
Proof.
  split.
  - intros stderr g1 Hf Hc.
    assert (Hrun : shallow remote remote_ref w
              = match fetch g1 remote remote_ref NoOpt with
                | (Ok _, g2) => (Ok tt, set_repo g2 w)
                | (Raise e, g2) => (Raise e, set_repo g2 w)
                end).
    { unfold fetch_shallow_since, fetch_m. unfold_monad. rewrite Hf, Hc. simpl.
      by destruct (fetch g1 remote remote_ref NoOpt) as [[d|e] g2]. }
    split; [done|]. intros d g2 Hg. by rewrite Hrun, Hg.
  - intros e g1 Hf Hother.
    unfold fetch_shallow_since, fetch_m. unfold_monad. rewrite Hf.
    destruct e; try done. by rewrite (Hother _ eq_refl).
Qed.

Lemma for_each_app (S A : Type) (l1 l2 : list A) (f : A → M S unit) (s : S) :
  for_each (l1 ++ l2) f s
  = match for_each l1 f s with
    | (Ok _, s1) => for_each l2 f s1
    | (Raise e, s1) => (Raise e, s1)
    end.
Proof.
  revert s. induction l1 as [|a l1 IH]; intros s; simpl; [done|].
  unfold bind. destruct (f a s) as [[[]|e] s']; [apply IH|done].
Qed.

(** [monitor_subject] either raises and leaves the state as it is, or
    reconciles the records of its subject with some list of patch ids. *)
Lemma monitor_subject_cases (subject : MonitoringSubjects)
    (reference : option string) (w w' : World Repo) (r : result unit) :
  subject_run subject reference w = (r, w') →
  (∃ e, r = Raise e ∧ w' = w)
  ∨ (r = Ok tt ∧ ∃ ids,
       w' = set_missing
              (reconcile autoflush (monitoringSubjectID subject) ids
                 (missing_patches w)) w).
Proof.
  unfold monitor_subject. unfold bind at 1.
  pose proof (missing_cherries_state (default (revision subject) reference) w) as Hst.
  destruct (detect _ w) as [[cherries|e] w1]; simpl in Hst; subst w1.
  - unfold_monad. destruct (py_min _) as [t|e]; [|intros [= <- <-]; left; eauto].
    destruct (process_commits _ _ _) as [ds|e]; [|intros [= <- <-]; left; eauto].
    intros [= <- <-]. right. split; [done|]. eexists. reflexivity.
  - intros [= <- <-]. left. eauto.
Qed.

Lemma fetch_m_frame (remote ref : string) (opt : FetchOpt) (w w' : World Repo)
    (r : result Z) :
  fetch_m Repo fetch remote ref opt w = (r, w') → ∃ g, w' = set_repo g w.
Proof.
  unfold fetch_m. destruct (fetch _ _ _ _) as [r' g]. intros [= <- <-]. eauto.
Qed.

Lemma shallow_frame (remote ref : string) (w w' : World Repo) (r : result unit) :
  shallow remote ref w = (r, w') → ∃ g, w' = set_repo g w.
Proof.
  unfold fetch_shallow_since. unfold_monad.
  destruct (fetch_m _ _ _ _ _ w) as [[d|e] w1] eqn:E1;
    destruct (fetch_m_frame _ _ _ _ _ _ E1) as [g1 ->].
  - intros [= <- <-]. eauto.
  - destruct e; try (intros [= <- <-]; eauto).
    destruct (contains _ _); [|intros [= <- <-]; eauto].
    destruct (fetch_m _ _ _ _ NoOpt _) as [[d|e] w2] eqn:E2;
      destruct (fetch_m_frame _ _ _ _ _ _ E2) as [g2 ->];
      intros [= <- <-]; eauto.
Qed.

(** One turn of the loop keeps the PatchData table; when it raises, the
    records are what they were; when it returns, they are what they were
    or the records of its subject were reconciled. *)
Lemma body_cases (s : MonitoringSubjects) (w w' : World Repo) (r : result unit) :
  body s w = (r, w') →
  patch_data w' = patch_data w
  ∧ ((∃ e, r = Raise e ∧ missing_patches w' = missing_patches w)
     ∨ (r = Ok tt
        ∧ (missing_patches w' = missing_patches w
           ∨ ∃ ids, missing_patches w'
                    = reconcile autoflush (monitoringSubjectID s) ids
                        (missing_patches w)))).
Proof.
  unfold monitor_downstream_body.
  destruct (startswith (distroID s) "Debian").
  { unfold ret. intros [= <- <-]. split; [done|]. right. split; [done|]. by left. }
  destruct (local_and_remote_ref s) as [local_ref remote_ref].
  unfold bind at 1. unfold get at 1. unfold bind at 1.
  destruct (remote_exists (repo w) (distroID s));
    [|unfold raise; intros [= <- <-]; split; [done|]; left; eauto].
  unfold ret at 1. unfold bind at 1.
  destruct (fetch_m _ _ _ _ _ w) as [[d|e] w1] eqn:E1;
    destruct (fetch_m_frame _ _ _ _ _ _ E1) as [g1 ->];
    [|intros [= <- <-]; split; [done|]; left; eauto].
  unfold bind at 1.
  assert (Hstep : ∀ (m : M (World Repo) unit) r2 w2,
            m (set_repo g1 w) = (r2, w2) → (∃ g, w2 = set_repo g w) →
            (match r2 with
             | Ok _ =>
                 (modify (λ w0, if has_reference (repo w0) local_ref then w0
                                else set_repo (create_tag (repo w0) local_ref
                                                 "FETCH_HEAD") w0) ;;;
                  subject_run s (Some local_ref))%py w2
             | Raise e => (Raise e, w2)
             end) = (r, w') →
            patch_data w' = patch_data w
            ∧ ((∃ e, r = Raise e ∧ missing_patches w' = missing_patches w)
               ∨ (r = Ok tt
                  ∧ (missing_patches w' = missing_patches w
                     ∨ ∃ ids, missing_patches w'
                              = reconcile autoflush (monitoringSubjectID s) ids
                                  (missing_patches w))))).
  { intros m r2 w2 _ [g2 ->] H. destruct r2 as [[]|e];
      [|injection H as <- <-; split; [done|]; left; eauto].
    unfold bind, modify in H.
    simpl in H.
    apply monitor_subject_cases in H as [(e & -> & ->)|(-> & ids & ->)].
    - split; [by destruct (has_reference _ _)|]. left. eexists. split; [done|].
      by destruct (has_reference _ _).
    - split; [by destruct (has_reference _ _)|]. right. split; [done|]. right.
      exists ids. by destruct (has_reference _ _). }
  destruct (approx_date_since <=? d)%Z.
  - destruct (shallow _ _ (set_repo g1 w)) as [r2 w2] eqn:E2.
    destruct (shallow_frame _ _ _ _ _ E2) as [g2 ->].
    intros H. eapply (Hstep _ _ _ E2); [by eexists|].
    destruct r2 as [[]|e]; exact H.
  - intros H. eapply (Hstep (ret tt) (Ok tt) (set_repo g1 w)); [done|by eexists|].
    exact H.
Qed.

(** A run changes the records of the subjects it was given only. *)
Lemma run_frame (subjects : list MonitoringSubjects) (w w' : World Repo)
    (r : result unit) (sid : Z) :
  run subjects w = (r, w') →
  sid ∉ map monitoringSubjectID subjects →
  records_of sid (missing_patches w') = records_of sid (missing_patches w).
Proof.
  revert w. induction subjects as [|s subjects IH]; intros w Hrun Hsid.
  - by injection Hrun as <- <-.
  - unfold monitor_downstream in Hrun. simpl in Hrun. unfold bind in Hrun.
    destruct (body s w) as [r1 w1] eqn:E1.
    assert (Hne : sid ≠ monitoringSubjectID s).
    { intros ->. apply Hsid. simpl. apply elem_of_cons. by left. }
    assert (Hrec : records_of sid (missing_patches w1)
                   = records_of sid (missing_patches w)).
    { apply body_cases in E1 as [_ [(e & _ & ->)|(_ & [->|(ids & ->)])]];
        [done|done|]. by apply records_of_reconcile. }
    destruct r1 as [[]|e].
    + rewrite <- Hrec. apply IH; [exact Hrun|].
      intros Hin. apply Hsid. simpl. apply elem_of_cons. by right.
    + injection Hrun as <- <-. exact Hrec.
Qed.

(** C3, as the code has it. When the turn of a subject raises, the
    exception comes out of [monitor_downstream] with the state of that
    moment: the subjects after it are not processed. The failing turn
    leaves every MissingPatchRecord as it was, and the records of the
    subjects that were not processed before it are those of the start of
    the run. *)
Theorem failure_stops_run_and_frames (pre post : list MonitoringSubjects)
    (s : MonitoringSubjects) (w0 w1 w2 : World Repo) (e : exn) :
  run pre w0 = (Ok tt, w1) →
  body s w1 = (Raise e, w2) →
  run (pre ++ s :: post) w0 = (Raise e, w2)
  ∧ missing_patches w2 = missing_patches w1
  ∧ (∀ sid, sid ∉ map monitoringSubjectID pre →
            records_of sid (missing_patches w2)
            = records_of sid (missing_patches w0)).
Proof.
  intros Hpre Hs. split; [|split].
  - unfold monitor_downstream in *. rewrite for_each_app, Hpre. simpl.
    unfold bind. by rewrite Hs.
  - apply body_cases in Hs as [_ [(e' & _ & H)|(H & _)]]; [done|discriminate H].
  - intros sid Hsid.
    apply body_cases in Hs as [_ [(e' & _ & ->)|(H & _)]]; [|discriminate H].
    by eapply run_frame.
Qed.

End MonitorProofs.

(** ** The monitor on the concrete repository *)

Section MonitorExamples.

Import Monitor Fixtures.

Lemma detector_is_intersection_witness :
  missing_cherries toy_since toy_paths ToyRepo toy_log "Ubuntu-ok/v1" toy_world
  = (Ok (line_set (String.concat ParseData.nl ["c2"; "c3"; "c9"])
         ∩ line_set (String.concat ParseData.nl ["c1"; "c2"; "c3"])), toy_world).
Proof.
  apply (detector_is_intersection toy_since toy_paths ToyRepo toy_log
           "Ubuntu-ok/v1"); reflexivity.
Defined.

Example detector_finds_c2_c3 :
  elements (line_set (String.concat ParseData.nl ["c2"; "c3"; "c9"])
            ∩ line_set (String.concat ParseData.nl ["c1"; "c2"; "c3"]))
  ≡ₚ ["c2"; "c3"].
Proof. vm_compute. apply perm_swap || reflexivity. Qed.

Lemma empty_candidates_raise_witness :
  toy_monitor_subject empty_subject (Some "Ubuntu-empty/v1") toy_world
  = (Raise (ValueError "min() arg is an empty sequence"), toy_world)
  ∧ records_of 3 (missing_patches
       (snd (toy_monitor_subject empty_subject (Some "Ubuntu-empty/v1") toy_world)))
    = [ {| mp_monitoringSubjectID := 3; mp_patchID := 1 |} ].
Proof.
  apply (empty_candidates_raise toy_since toy_paths ToyRepo toy_log unit
           toy_process_commits toy_patch_matches true empty_subject
           (Some "Ubuntu-empty/v1")
           (line_set "" ∩ line_set (String.concat ParseData.nl ["c1"; "c2"; "c3"]))).
  - reflexivity.
  - left. reflexivity.
Defined.

Lemma shallow_since_fallback_witness :
  toy_fetch_shallow_since "Ubuntu-ado" "v1" toy_world
  = (Ok tt, set_repo {| fetched := [("Ubuntu-ado", "v1", NoOpt)]; tags := [] |}
              toy_world)
  ∧ toy_fetch_shallow_since "Ubuntu-auth" "v1" toy_world
    = (Raise (GitCommandError "fatal: Authentication failed"), toy_world).
Proof.
  split.
  - destruct (shallow_since_fallback toy_since ToyRepo toy_fetch
                "Ubuntu-ado" "v1" toy_world) as [Hfallback _].
    destruct (Hfallback "fatal: Server does not support --shallow-since"
                (repo toy_world) eq_refl eq_refl) as [_ Hok].
    exact (Hok 100%Z _ eq_refl).
  - destruct (shallow_since_fallback toy_since ToyRepo toy_fetch
                "Ubuntu-auth" "v1" toy_world) as [_ Hother].
    apply (Hother (GitCommandError "fatal: Authentication failed")
             (repo toy_world) eq_refl).
    intros stderr [= <-]. reflexivity.
Defined.

(** C3, as stated, fails: the fetch of the first subject cannot reach its
    remote, the exception ends the run, and the subject after it, whose
    own turn would record patches 2 and 3 as missing, is left without
    records. *)
Lemma failure_isolation_counterexample :
  toy_monitor_downstream [offline_subject; healthy_subject] toy_world
  = (Raise (GitCommandError
              "fatal: unable to access the remote: Could not resolve host"),
     toy_world)
  ∧ records_of 2 (missing_patches
       (snd (toy_monitor_downstream [offline_subject; healthy_subject] toy_world)))
    = []
  ∧ records_of 2 (missing_patches
       (snd (toy_monitor_downstream [healthy_subject] toy_world)))
    = [ {| mp_monitoringSubjectID := 2; mp_patchID := 2 |};
        {| mp_monitoringSubjectID := 2; mp_patchID := 3 |} ]
  ∧ ¬ continues_after_failure toy_since toy_approx_date_since toy_paths ToyRepo
        toy_log toy_remote_exists toy_fetch toy_has_reference toy_create_tag
        unit toy_process_commits toy_patch_matches true.
Proof.
  split; [|split; [|split]]; try (vm_compute; reflexivity).
  intros H.
  specialize (H offline_subject [healthy_subject] toy_world toy_world
                (GitCommandError
                   "fatal: unable to access the remote: Could not resolve host")
                eq_refl).
  vm_compute in H. discriminate H.
Qed.

Lemma failure_stops_run_witness :
  toy_monitor_downstream [healthy_subject; offline_subject; empty_subject] toy_world
  = (Raise (GitCommandError
              "fatal: unable to access the remote: Could not resolve host"),
     snd (toy_monitor_downstream [healthy_subject] toy_world))
  ∧ records_of 3 (missing_patches
       (snd (toy_monitor_downstream [healthy_subject] toy_world)))
    = records_of 3 (missing_patches toy_world).
Proof.
  assert (Hpre : toy_monitor_downstream [healthy_subject] toy_world
                 = (Ok tt, snd (toy_monitor_downstream [healthy_subject] toy_world)))
    by (vm_compute; reflexivity).
  assert (Hfail : toy_monitor_downstream_body offline_subject
                    (snd (toy_monitor_downstream [healthy_subject] toy_world))
                  = (Raise (GitCommandError
                       "fatal: unable to access the remote: Could not resolve host"),
                     snd (toy_monitor_downstream [healthy_subject] toy_world)))
    by (vm_compute; reflexivity).
  destruct (failure_stops_run_and_frames toy_since toy_approx_date_since
              toy_paths ToyRepo toy_log toy_remote_exists toy_fetch
              toy_has_reference toy_create_tag unit toy_process_commits
              toy_patch_matches true
              [healthy_subject] [empty_subject] offline_subject _ _ _ _
              Hpre Hfail)
    as (Hrun & _ & Hframe).
  split; [exact Hrun|]. apply Hframe. simpl.
  intros H. apply list_elem_of_singleton in H. discriminate H.
Defined.

Lemma reconcile_set_equality_witness :
  missing_ids 2 (reconcile true 2 [2; 3]%Z
     [ {| mp_monitoringSubjectID := 2; mp_patchID := 1 |};
       {| mp_monitoringSubjectID := 2; mp_patchID := 2 |};
       {| mp_monitoringSubjectID := 3; mp_patchID := 1 |} ])
  = list_to_set [2; 3]%Z.
Proof. apply reconcile_set_equality. Defined.

Example reconcile_rows :
  reconcile true 2 [2; 3]%Z
     [ {| mp_monitoringSubjectID := 2; mp_patchID := 1 |};
       {| mp_monitoringSubjectID := 2; mp_patchID := 2 |};
       {| mp_monitoringSubjectID := 3; mp_patchID := 1 |} ]
  = [ {| mp_monitoringSubjectID := 2; mp_patchID := 2 |};
      {| mp_monitoringSubjectID := 3; mp_patchID := 1 |};
      {| mp_monitoringSubjectID := 2; mp_patchID := 3 |} ].
Proof. vm_compute. reflexivity. Qed.

End MonitorExamples.

(** ** The symbol checker *)

Section SymbolCheckerProofs.

Import Symbols.

Lemma ascii_compare_refl (c : ascii) : Ascii.compare c c = Eq.
Proof. unfold Ascii.compare. apply N.compare_refl. Qed.

Lemma string_compare_lt_trans (s1 s2 s3 : string) :
  String.compare s1 s2 = Lt → String.compare s2 s3 = Lt →
  String.compare s1 s3 = Lt.
Proof.
  revert s2 s3. induction s1 as [|c1 s1 IH]; intros [|c2 s2] [|c3 s3];
    simpl; try done.
  unfold Ascii.compare.
  destruct (N.compare_spec (N_of_ascii c1) (N_of_ascii c2)) as [E12|L12|G12];
    destruct (N.compare_spec (N_of_ascii c2) (N_of_ascii c3)) as [E23|L23|G23];
    try done; intros H12 H23.
  - rewrite E12, E23, N.compare_refl. by eapply IH.
  - rewrite E12. by rewrite (proj2 (N.compare_lt_iff _ _) L23).
  - rewrite <- E23. by rewrite (proj2 (N.compare_lt_iff _ _) L12).
  - assert (N_of_ascii c1 < N_of_ascii c3)%N as Hlt by lia.
    by rewrite (proj2 (N.compare_lt_iff _ _) Hlt).
Qed.

#[local] Instance str_le_total : Total str_le.
Proof. intros s1 s2. apply String.leb_total. Qed.

#[local] Instance str_le_trans : Transitive str_le.
Proof.
  intros s1 s2 s3. unfold str_le, String.leb.
  destruct (String.compare s1 s2) eqn:E12; [|
    destruct (String.compare s2 s3) eqn:E23 |]; try done.
  - apply String.compare_eq_iff in E12 as ->. done.
  - apply String.compare_eq_iff in E23 as <-. by rewrite E12.
  - by rewrite (string_compare_lt_trans _ _ _ E12 E23).
Qed.

Lemma sorted_sorted (l : list string) : StronglySorted str_le (sorted l).
Proof. apply StronglySorted_merge_sort; apply _. Qed.

Lemma sorted_perm (l : list string) : sorted l ≡ₚ l.
Proof. apply merge_sort_Permutation. Qed.

Variable sql_ne_space : string → bool.

Lemma has_missing_spec (file : gset string) (syms : string) :
  has_missing file syms = true ↔ ∃ w, w ∈ split " " syms ∧ w ∉ file.
Proof.
  unfold has_missing. rewrite Nat.ltb_lt. split.
  - intros H. apply size_pos_elem_of in H as [w Hw].
    apply elem_of_difference in Hw as [Hw Hn].
    apply elem_of_list_to_set in Hw. eauto.
  - intros (w & Hw & Hn).
    assert (Hne : size ((list_to_set (split " " syms) : gset string) ∖ file) ≠ 0%nat).
    { apply size_non_empty_iff. intros He.
      apply (not_elem_of_empty (C:=gset string) w). rewrite <- He.
      apply elem_of_difference. split; [|done]. by apply elem_of_list_to_set. }
    lia.
Qed.

Lemma checked_row_spec (file : gset string) (p : PatchData) (c : string) :
  checked_row sql_ne_space file p = Some c ↔
  commitID p = c ∧
  ∃ syms, symbols p = Some syms ∧ sql_ne_space syms = true ∧
          ∃ w, w ∈ split " " syms ∧ w ∉ file.
Proof.
  unfold checked_row. destruct (symbols p) as [syms|].
  - destruct (sql_ne_space syms) eqn:Hne; simpl.
    + destruct (has_missing file syms) eqn:Hm.
      * apply has_missing_spec in Hm. split.
        -- intros [= <-]. split; [done|]. by exists syms.
        -- by intros [-> _].
      * split; [done|]. intros (_ & syms' & [= <-] & _ & Hw).
        apply has_missing_spec in Hw. congruence.
    + split; [done|]. intros (_ & syms' & [= <-] & ? & _). congruence.
  - split; [done|]. by intros (_ & syms' & ? & _).
Qed.

Lemma symbol_checker_perm (content : string) (rows : list PatchData) :
  symbol_checker sql_ne_space content rows
  ≡ₚ omap (checked_row sql_ne_space (symbols_in_file content)) rows.
Proof.
  unfold symbol_checker. rewrite sorted_perm.
  apply omap_Permutation. apply merge_sort_Permutation.
Qed.

(** C4, as the code has it. The list [symbol_checker] returns is in
    ascending order of the commit ids themselves; it holds, once per row,
    the commit id of every row whose symbols are set, pass the comparison
    with a single space, and have a space-separated word that is not a line
    of the reference file. A commit whose row is the only one of its id and
    whose words are all lines of the reference file is not in it. *)
Theorem symbol_checker_sorted_by_id (content : string) (rows : list PatchData) :
  StronglySorted str_le (symbol_checker sql_ne_space content rows)
  ∧ symbol_checker sql_ne_space content rows
    ≡ₚ omap (checked_row sql_ne_space (symbols_in_file content)) rows
  ∧ (∀ c : string,
       c ∈ symbol_checker sql_ne_space content rows ↔
       ∃ p syms, p ∈ rows ∧ commitID p = c ∧ symbols p = Some syms ∧
                 sql_ne_space syms = true ∧
                 ∃ w, w ∈ split " " syms ∧ w ∉ stripped_lines content)
  ∧ (∀ (p : PatchData) (syms : string),
       p ∈ rows → symbols p = Some syms →
       (∀ q, q ∈ rows → commitID q = commitID p → q = p) →
       (∀ w, w ∈ split " " syms → w ∈ stripped_lines content) →
       commitID p ∉ symbol_checker sql_ne_space content rows).
Proof.
  assert (Hmem : ∀ c : string,
       c ∈ symbol_checker sql_ne_space content rows ↔
       ∃ p syms, p ∈ rows ∧ commitID p = c ∧ symbols p = Some syms ∧
                 sql_ne_space syms = true ∧
                 ∃ w, w ∈ split " " syms ∧ w ∉ stripped_lines content).
  { intros c. rewrite symbol_checker_perm, list_elem_of_omap. split.
    - intros (p & Hp & Hc). apply checked_row_spec in Hc
        as (Hid & syms & Hs & Hne & w & Hw & Hn).
      exists p, syms. repeat split; try done. exists w. split; [done|].
      intros Hin. apply Hn. by apply elem_of_list_to_set.
    - intros (p & syms & Hp & Hid & Hs & Hne & w & Hw & Hn).
      exists p. split; [done|]. apply checked_row_spec. split; [done|].
      exists syms. repeat split; try done. exists w. split; [done|].
      intros Hin. apply Hn. by apply elem_of_list_to_set in Hin. }
  split; [apply sorted_sorted|]. split; [apply symbol_checker_perm|].
  split; [exact Hmem|].
  intros p syms Hp Hs Huniq Hall Hin.
  apply Hmem in Hin as (q & syms' & Hq & Hid & Hs' & _ & w & Hw & Hn).
  rewrite (Huniq q Hq Hid) in Hs'. rewrite Hs in Hs'. injection Hs' as <-.
  by apply Hn, Hall.
Qed.

End SymbolCheckerProofs.

Section LegacyCheckerProofs.

Variable list_diff : list string → list string → list string.
Hypothesis list_diff_spec :
  ∀ a b x, x ∈ list_diff a b ↔ x ∈ a ∧ x ∉ b.

(** The earlier checker sorts the patch ids and keeps those of the entries
    with a symbol that is not a line of the file. *)
Lemma legacy_symbol_checker_sorted (content : string)
    (symbol_map : list (Z * list string)) :
  StronglySorted Z.le (UpstreamTracker.symbol_checker list_diff content symbol_map)
  ∧ (∀ k : Z,
       k ∈ UpstreamTracker.symbol_checker list_diff content symbol_map ↔
       ∃ syms w, (k, syms) ∈ symbol_map ∧ w ∈ syms ∧ w ∉ stripped_lines content).
Proof.
  unfold UpstreamTracker.symbol_checker. split.
  - apply StronglySorted_merge_sort; apply _.
  - intros k. rewrite merge_sort_Permutation, list_elem_of_omap. split.
    + intros ([k' syms] & Hin & Hk). simpl in Hk.
      destruct (list_diff syms (stripped_lines content)) as [|w l] eqn:Hd;
        simpl in Hk; [done|]. injection Hk as ->.
      assert (Hw : w ∈ list_diff syms (stripped_lines content))
        by (rewrite Hd; apply elem_of_cons; by left).
      apply list_diff_spec in Hw as [? ?]. eauto.
    + intros (syms & w & Hin & Hw & Hn). exists (k, syms). split; [done|]. simpl.
      assert (Hd : w ∈ list_diff syms (stripped_lines content))
        by (apply list_diff_spec; done).
      destruct (list_diff syms (stripped_lines content)); [|done].
      by apply elem_of_nil in Hd.
Qed.

End LegacyCheckerProofs.

Section SymbolCheckerExamples.

Import Symbols Fixtures.

(** C4, as stated, fails: both commits lack a symbol of the reference list
    and are returned, commit a before commit b, though b is the earlier
    commit. *)
Lemma symbol_checker_order_counterexample :
  symbol_checker binary_ne_space reference_file rows_time_vs_id = ["a"; "b"]
  ∧ ¬ ordered_by_commit_time rows_time_vs_id
        (symbol_checker binary_ne_space reference_file rows_time_vs_id).
Proof.
  split; [vm_compute; reflexivity|].
  intros H.
  specialize (H 0%nat 1%nat
    {| patchID := 2; commitID := "a"; commitTime := 2; symbols := Some "e" |}
    {| patchID := 1; commitID := "b"; commitTime := 1; symbols := Some "d" |}).
  assert (2 <= 1)%Z; [|lia].
  apply H.
  - lia.
  - apply elem_of_cons. right. apply elem_of_cons. by left.
  - apply elem_of_cons. by left.
  - vm_compute. reflexivity.
  - vm_compute. reflexivity.
Qed.

Lemma symbol_checker_sorted_witness :
  "c1" ∉ symbol_checker binary_ne_space reference_file
           [ {| patchID := 1; commitID := "c1"; commitTime := 10;
                symbols := Some "c" |};
             {| patchID := 2; commitID := "c2"; commitTime := 20;
                symbols := Some "d" |} ].
Proof.
  destruct (symbol_checker_sorted_by_id binary_ne_space reference_file
    [ {| patchID := 1; commitID := "c1"; commitTime := 10; symbols := Some "c" |};
      {| patchID := 2; commitID := "c2"; commitTime := 20; symbols := Some "d" |} ])
    as (_ & _ & _ & Hnot).
  apply (Hnot {| patchID := 1; commitID := "c1"; commitTime := 10;
                 symbols := Some "c" |} "c").
  - apply elem_of_cons. by left.
  - reflexivity.
  - intros q Hq Hid. apply elem_of_cons in Hq as [->|Hq]; [done|].
    apply list_elem_of_singleton in Hq as ->. discriminate Hid.
  - intros w Hw. apply list_elem_of_singleton in Hw as ->.
    apply elem_of_cons. right. apply elem_of_cons. by left.
Defined.

End SymbolCheckerExamples.

(** ** The symbol drift tracker *)

Section TrackerProofs.

Import Symbols.

Variable checkout_error : string → option string.
Variable ctags : string → list string → Z * string.
Variable iter : gset string → list string.
Variable paths : list string.

#[local] Abbreviation co := (checkout checkout_error).
#[local] Abbreviation syms := (symbols_at ctags paths).
#[local] Abbreviation replay_ := (replay checkout_error ctags iter paths).
#[local] Abbreviation persist_ := (persist iter).
#[local] Abbreviation deltas_ := (deltas ctags paths).
#[local] Abbreviation track :=
  (fun commits prev => map_symbols_to_patch checkout_error ctags iter commits paths prev).

Ltac unfold_monad :=
  unfold bind, ret, raise, lift, get, gets, modify in *.

#[local] Abbreviation before_of := (Symbols.before_of ctags paths).

Lemma checkout_cases (ref : string) (st st' : State) (r : result unit) :
  co ref st = (r, st') →
  (∃ e, r = Raise e ∧ st' = st ∧ checkout_error ref ≠ None)
  ∨ (r = Ok tt ∧ st' = set_head ref st ∧ checkout_error ref = None).
Proof.
  unfold checkout. destruct (checkout_error ref) as [err|]; intros [= <- <-].
  - left. eauto.
  - right. eauto.
Qed.

Lemma get_symbols_cases (st st' : State) (r : result (gset string)) :
  get_symbols ctags paths st = (r, st') →
  st' = st ∧ ((∃ e, r = Raise e ∧ fst (ctags (head st) paths) ≠ 0%Z)
              ∨ (r = Ok (syms (head st)) ∧ fst (ctags (head st) paths) = 0%Z)).
Proof.
  unfold get_symbols, symbols_at.
  destruct (ctags (head st) paths) as [rc out]. simpl.
  destruct rc; intros [= <- <-]; split; try done; [right|left|left]; eauto.
Qed.

Lemma save_symbols_cases (commit : string) (d : gset string) (st st' : State)
    (r : result unit) :
  save_symbols iter commit d st = (r, st') →
  (∃ e, r = Raise e ∧ st' = st)
  ∨ (r = Ok tt ∧ st' = set_table (persist_ (patch_table st) (commit, d)) st
     ∧ ∃ p, filter (λ p, Is_true (String.eqb (commitID p) commit)) (patch_table st)
            = [p]).
Proof.
  unfold save_symbols.
  destruct (filter _ (patch_table st)) as [|p [|q l]]; simpl;
    intros [= <- <-]; [left|right|left]; eauto.
Qed.

(** However the loop ends, the table is the one the first [k] commits of
    the sequence leave, [k] being all of them when the loop returns. *)
Lemma replay_progress (commits : list string) (b : option (gset string))
    (st st' : State) (r : result unit) :
  replay_ commits b st = (r, st') →
  ∃ k : nat,
    (k ≤ length commits)%nat
    ∧ patch_table st'
      = fold_left persist_ (take k (deltas_ (before_of b st) commits))
          (patch_table st)
    ∧ (r = Ok tt → k = length commits).
Proof.
  revert b st. induction commits as [|c rest IH]; intros b st Hrun.
  - injection Hrun as <- <-. exists 0%nat. by repeat split.
  - simpl in Hrun. unfold bind at 1 in Hrun.
    assert (Hstop : ∀ e, (Raise e, st) = (r, st') →
              ∃ k : nat, (k ≤ length (c :: rest))%nat
                ∧ patch_table st'
                  = fold_left persist_
                      (take k (deltas_ (before_of b st) (c :: rest)))
                      (patch_table st)
                ∧ (r = Ok tt → k = length (c :: rest))).
    { intros e [= <- <-]. exists 0%nat. simpl. repeat split; [lia|done]. }
    destruct (match b with Some b0 => ret b0 | None => get_symbols ctags paths end st)
      as [rb st1] eqn:Eb.
    assert (Hb : st1 = st ∧ ((∃ e, rb = Raise e) ∨ rb = Ok (before_of b st))).
    { destruct b as [b0|]; simpl.
      - injection Eb as <- <-. split; [done|]. by right.
      - apply get_symbols_cases in Eb as [-> [(e & -> & _)|[-> _]]];
          (split; [done|]); [left; eauto|by right]. }
    destruct Hb as [-> [[e ->] | ->]]; [by eapply Hstop|].
    unfold bind at 1 in Hrun.
    destruct (co c st) as [rc st2] eqn:Ec.
    apply checkout_cases in Ec as [(e & -> & -> & _)|(-> & -> & _)];
      [by eapply Hstop|].
    unfold bind at 1 in Hrun.
    destruct (get_symbols ctags paths (set_head c st)) as [ra st3] eqn:Ea.
    apply get_symbols_cases in Ea as [-> [(e & -> & _)|[-> _]]].
    { cbv beta iota in Hrun. injection Hrun as <- <-. exists 0%nat. simpl.
      repeat split; [lia|done]. }
    unfold bind at 1 in Hrun.
    change (head (set_head c st)) with c in Hrun.
    destruct (save_symbols iter c (syms c ∖ before_of b st) (set_head c st))
      as [rs st4] eqn:Es.
    apply save_symbols_cases in Es as [(e & -> & ->)|(-> & -> & _)].
    { cbv beta iota in Hrun. injection Hrun as <- <-. exists 0%nat. simpl.
      repeat split; [lia|done]. }
    cbv beta iota in Hrun. apply IH in Hrun as (k & Hk & Htab & Hok).
    exists (S k). simpl. split; [lia|]. split; [exact Htab|].
    intros Hr. by rewrite (Hok Hr).
Qed.

(** *** Success of the replay and the rows it leaves *)

Lemma commitID_set_symbols (c s : string) (p : PatchData) :
  commitID (set_symbols c s p) = commitID p.
Proof. unfold set_symbols. by destruct (String.eqb _ _). Qed.

Lemma filter_persist (c : string) (cd : string * gset string)
    (table : list PatchData) :
  filter (λ p, Is_true (String.eqb (commitID p) c)) (persist_ table cd)
  = map (set_symbols cd.1 (join " " (iter cd.2)))
        (filter (λ p, Is_true (String.eqb (commitID p) c)) table).
Proof.
  unfold persist. induction table as [|p table IH]; [done|].
  simpl. rewrite !filter_cons, commitID_set_symbols.
  destruct (decide _); simpl; by rewrite IH.
Qed.

Lemma one_row_persist (c : string) (cd : string * gset string)
    (table : list PatchData) :
  one_row c table → one_row c (persist_ table cd).
Proof.
  intros [p Hp]. unfold one_row. rewrite filter_persist, Hp. by eexists.
Qed.

Lemma get_symbols_ok (st : State) :
  fst (ctags (head st) paths) = 0%Z →
  get_symbols ctags paths st = (Ok (syms (head st)), st).
Proof.
  unfold get_symbols, symbols_at. destruct (ctags (head st) paths) as [rc out].
  simpl. by intros ->.
Qed.

Lemma replay_ok (commits : list string) (b : option (gset string)) (st : State) :
  (b = None → fst (ctags (head st) paths) = 0%Z) →
  (∀ c, c ∈ commits →
        checkout_error c = None ∧ fst (ctags c paths) = 0%Z
        ∧ one_row c (patch_table st)) →
  ∃ st', replay_ commits b st = (Ok tt, st').
Proof.
  revert b st. induction commits as [|c rest IH]; intros b st Hb Hall.
  - by eexists.
  - destruct (Hall c) as (Hco & Hct & [p Hp]); [apply elem_of_cons; by left|].
    simpl. unfold bind at 1.
    assert (Hbefore : (match b with
                       | Some b0 => ret b0
                       | None => get_symbols ctags paths
                       end) st = (Ok (before_of b st), st)).
    { destruct b as [b0|]; [done|]. simpl. by apply get_symbols_ok, Hb. }
    rewrite Hbefore. unfold bind at 1. unfold checkout at 1. rewrite Hco.
    unfold bind at 1. rewrite get_symbols_ok by done.
    unfold bind at 1. unfold save_symbols at 1.
    change (patch_table (set_head c st)) with (patch_table st). rewrite Hp.
    simpl one. cbv beta iota.
    apply IH; [done|].
    intros c' Hc'. destruct (Hall c') as (? & ? & ?); [apply elem_of_cons; by right|].
    repeat split; try done.
    exact (one_row_persist c' (c, syms c ∖ before_of b st) (patch_table st) H1).
Qed.

Lemma deltas_fst (b : gset string) (commits : list string) :
  map fst (deltas_ b commits) = commits.
Proof.
  revert b. induction commits as [|c rest IH]; intros b; simpl; [done|].
  by rewrite IH.
Qed.

Lemma deltas_lookup (b : gset string) (commits : list string) (i : nat)
    (c : string) :
  commits !! i = Some c →
  deltas_ b commits !! i
  = Some (c, syms c ∖ match i with
                      | O => b
                      | S j => match commits !! j with
                               | Some c' => syms c'
                               | None => b
                               end
                      end).
Proof.
  revert b i. induction commits as [|c0 rest IH]; intros b i Hi; [done|].
  destruct i as [|i]; simpl in *; [by injection Hi as ->|].
  rewrite (IH _ _ Hi). destruct i as [|j]; [done|]. simpl.
  destruct (lookup_lt_is_Some_2 rest j) as [c' Hc'];
    [apply lookup_lt_Some in Hi; lia|].
  by rewrite Hc'.
Qed.

Lemma persist_commit_ids (table : list PatchData) (cd : string * gset string)
    (c : string) :
  (∃ p, p ∈ table ∧ commitID p = c) →
  ∃ p, p ∈ persist_ table cd ∧ commitID p = c.
Proof.
  intros (p & Hp & Hc). exists (set_symbols cd.1 (join " " (iter cd.2)) p).
  split; [|by rewrite commitID_set_symbols].
  unfold persist. by apply (list_elem_of_fmap_2 (set_symbols _ _)).
Qed.

Lemma elem_of_persist (table : list PatchData) (cd : string * gset string)
    (p' : PatchData) :
  p' ∈ persist_ table cd →
  ∃ p, p ∈ table ∧ p' = set_symbols cd.1 (join " " (iter cd.2)) p.
Proof.
  unfold persist. intros H.
  apply (list_elem_of_fmap_1 (set_symbols _ _)) in H as (p & -> & Hp). eauto.
Qed.

Lemma fold_persist_commit_ids (cds : list (string * gset string))
    (table : list PatchData) (c : string) :
  (∃ p, p ∈ table ∧ commitID p = c) →
  ∃ p, p ∈ fold_left persist_ cds table ∧ commitID p = c.
Proof.
  revert table. induction cds as [|cd cds IH]; intros table H; [done|].
  simpl. apply IH. by apply persist_commit_ids.
Qed.

Lemma fold_persist_untouched (cds : list (string * gset string))
    (table : list PatchData) (p' : PatchData) :
  commitID p' ∉ map fst cds →
  p' ∈ fold_left persist_ cds table → p' ∈ table.
Proof.
  revert table. induction cds as [|cd cds IH]; intros table Hc Hp; [done|].
  simpl in *. apply not_elem_of_cons in Hc as [Hne Hc].
  apply IH in Hp; [|done].
  apply elem_of_persist in Hp as (p & Hp & ->).
  rewrite commitID_set_symbols in Hne. unfold set_symbols.
  destruct (String.eqb_spec (commitID p) cd.1) as [E|_]; [by rewrite E in Hne|done].
Qed.

Lemma fold_persist_last (l1 l2 : list (string * gset string))
    (table : list PatchData) (c : string) (d : gset string) (p' : PatchData) :
  c ∉ map fst l2 →
  p' ∈ fold_left persist_ (l1 ++ (c, d) :: l2) table → commitID p' = c →
  symbols p' = Some (join " " (iter d)).
Proof.
  intros Hlast Hp Hc. rewrite fold_left_app in Hp. simpl in Hp.
  apply fold_persist_untouched in Hp; [|by rewrite Hc].
  apply elem_of_persist in Hp as (p & Hp & ->). simpl in *.
  rewrite commitID_set_symbols in Hc. unfold set_symbols.
  by rewrite Hc, String.eqb_refl.
Qed.

(** C5. When every checkout and every symbol extraction of the replay
    succeeds and each commit of the sequence has its one PatchData row, the
    run returns and has persisted, in order, for each commit [i] the set
    difference between the symbols of commit [i] and the symbols of its
    predecessor in the sequence (of the baseline for the first commit). The
    symbols stored on a commit that does not come again later in the
    sequence are that difference, joined by spaces: exactly the set of the
    difference, with no symbol the predecessor has, so that a symbol commit
    [i] removes is not recorded. *)
Theorem tracker_persists_deltas (commits : list string) (prev : string)
    (st : State) :
  checkout_error prev = None →
  checkout_error (head st) = None →
  fst (ctags prev paths) = 0%Z →
  (∀ c, c ∈ commits →
        checkout_error c = None ∧ fst (ctags c paths) = 0%Z
        ∧ one_row c (patch_table st)) →
  (∀ X : gset string, iter X ≡ₚ elements X) →
  ∃ st',
    track commits prev st = (Ok tt, st')
    ∧ patch_table st'
      = fold_left persist_ (deltas_ (syms prev) commits) (patch_table st)
    ∧ ∀ (i : nat) (c : string),
        commits !! i = Some c →
        let delta := syms c ∖ syms (predecessor prev commits i) in
        deltas_ (syms prev) commits !! i = Some (c, delta)
        ∧ (∃ p, p ∈ patch_table st' ∧ commitID p = c)
        ∧ (c ∉ drop (S i) commits →
           ∀ p, p ∈ patch_table st' → commitID p = c →
                symbols p = Some (join " " (iter delta)))
        ∧ (list_to_set (iter delta) : gset string) = delta
        ∧ (∀ s, s ∈ syms (predecessor prev commits i) → s ∉ iter delta).
Proof.
  intros Hprev Hinit Hct Hall Hiter.
  destruct (replay_ok commits None (set_head prev st)) as [st2 Hrun];
    [done|done|].
  pose proof (replay_progress _ _ _ _ _ Hrun) as (k & _ & Htab & Hk).
  rewrite (Hk eq_refl) in Htab. simpl in Htab.
  rewrite take_ge in Htab
    by (rewrite <- (deltas_fst (syms prev) commits) at 2; by rewrite length_map).
  exists (set_head (head st) st2). split; [|split; [exact Htab|]].
  - unfold map_symbols_to_patch, try_finally. unfold bind at 1. unfold gets at 1.
    unfold bind at 1. unfold checkout at 1. rewrite Hprev, Hrun.
    unfold checkout. by rewrite Hinit.
  - intros i c Hi delta. simpl patch_table. rewrite Htab.
    assert (Hd : deltas_ (syms prev) commits !! i = Some (c, delta)).
    { rewrite (deltas_lookup _ _ _ _ Hi).
      unfold delta, predecessor. destruct i as [|j]; [done|].
      destruct (lookup_lt_is_Some_2 commits j) as [c' Hc'];
        [apply lookup_lt_Some in Hi; lia|].
      by rewrite Hc'. }
    assert (Hset : (list_to_set (iter delta) : gset string) = delta).
    { apply set_eq. intros s.
      by rewrite elem_of_list_to_set, (Hiter delta), elem_of_elements. }
    split; [exact Hd|]. split; [|split; [|split]].
    + apply fold_persist_commit_ids.
      destruct (Hall c) as (_ & _ & p & Hp);
        [apply list_elem_of_lookup; eauto|].
      exists p.
      assert (Hin : p ∈ filter (λ p, Is_true (String.eqb (commitID p) c))
                        (patch_table st))
        by (rewrite Hp; apply elem_of_cons; by left).
      apply list_elem_of_filter in Hin as [Hc Hin].
      split; [done|]. by apply Is_true_true, String.eqb_eq in Hc.
    + intros Hlast p Hp Hc.
      rewrite <- (take_drop_middle _ _ _ Hd) in Hp.
      eapply fold_persist_last; [|exact Hp|exact Hc].
      by rewrite <- skipn_map, deltas_fst.
    + exact Hset.
    + intros s Hs Hin.
      assert (Hsd : s ∈ delta)
        by (rewrite <- Hset; by apply elem_of_list_to_set).
      apply elem_of_difference in Hsd as [_ Hn]. done.
Qed.

(** *** How far an interrupted replay gets *)

Import TrackerNotions.

Lemma leading_le {A : Type} (ok : A → bool) (l : list A) :
  (leading ok l ≤ length l)%nat.
Proof.
  induction l as [|x l IH]; simpl; [lia|]. destruct (ok x); simpl; lia.
Qed.

Lemma leading_ext {A : Type} (f g : A → bool) (l : list A) :
  (∀ x, f x = g x) → leading f l = leading g l.
Proof.
  intros H. induction l as [|x l IH]; simpl; [done|]. by rewrite H, IH.
Qed.

Lemma has_one_row_persist (table : list PatchData) (cd : string * gset string)
    (c : string) :
  has_one_row (persist_ table cd) c = has_one_row table c.
Proof.
  unfold has_one_row. rewrite filter_persist.
  by destruct (filter _ table) as [|p [|q l]].
Qed.

Lemma step_ok_persist (table : list PatchData) (cd : string * gset string)
    (c : string) :
  step_ok checkout_error ctags paths (persist_ table cd) c
  = step_ok checkout_error ctags paths table c.
Proof. unfold step_ok. by rewrite has_one_row_persist. Qed.

Lemma predecessor_cons (p c : string) (rest : list string) (k : nat) :
  (k ≤ length rest)%nat →
  predecessor p (c :: rest) (S k) = predecessor c rest k.
Proof.
  intros Hk. destruct k as [|j]; simpl; [done|].
  destruct (lookup_lt_is_Some_2 rest j) as [c' Hc']; [lia|]. by rewrite Hc'.
Qed.

(** The loop, once it has the symbols to compare with: the table it leaves
    is the one of the leading turns that complete, the work tree is at the
    commit that stopped it or at the last one before, and it returns
    exactly when every turn completes. *)
Lemma replay_exact (commits : list string) (b : gset string) (st st' : State)
    (r : result unit) :
  replay_ commits (Some b) st = (r, st') →
  let k := leading (step_ok checkout_error ctags paths (patch_table st)) commits in
  patch_table st'
  = fold_left persist_ (take k (deltas_ b commits)) (patch_table st)
  ∧ head st' = match commits !! k with
               | Some c => if checkout_ok checkout_error c then c
                           else predecessor (head st) commits k
               | None => predecessor (head st) commits k
               end
  ∧ (r = Ok tt ↔ k = length commits).
Proof.
  revert b st. induction commits as [|c rest IH]; intros b st Hrun.
  - injection Hrun as <- <-. done.
  - simpl in Hrun. unfold bind at 1 in Hrun. unfold ret at 1 in Hrun.
    cbv beta iota in Hrun. unfold bind at 1 in Hrun.
    cbv zeta. cbn [leading].
    destruct (co c st) as [rc st2] eqn:Ec.
    apply checkout_cases in Ec as [(e & -> & -> & Hco)|(-> & -> & Hco)].
    { injection Hrun as <- <-.
      assert (Hc : checkout_ok checkout_error c = false).
      { unfold checkout_ok. by destruct (checkout_error c). }
      assert (Hs : step_ok checkout_error ctags paths (patch_table st) c = false)
        by (unfold step_ok; by rewrite Hc).
      rewrite Hs. simpl. rewrite Hc. repeat split; done. }
    assert (Hc : checkout_ok checkout_error c = true)
      by (unfold checkout_ok; by rewrite Hco).
    unfold bind at 1 in Hrun.
    destruct (get_symbols ctags paths (set_head c st)) as [ra st3] eqn:Ea.
    apply get_symbols_cases in Ea as [-> [(e & -> & Hct)|[-> Hct]]];
      change (head (set_head c st)) with c in *.
    { cbv beta iota in Hrun. injection Hrun as <- <-.
      assert (Hs : step_ok checkout_error ctags paths (patch_table st) c = false).
      { unfold step_ok, extract_ok. apply Z.eqb_neq in Hct. rewrite Hct.
        by rewrite andb_false_r. }
      rewrite Hs. simpl. rewrite Hc. repeat split; done. }
    assert (He : extract_ok ctags paths c = true) by (by apply Z.eqb_eq).
    unfold bind at 1 in Hrun. unfold save_symbols at 1 in Hrun.
    change (patch_table (set_head c st)) with (patch_table st) in Hrun.
    assert (Hs : step_ok checkout_error ctags paths (patch_table st) c
                 = match filter (λ p, Is_true (String.eqb (commitID p) c))
                           (patch_table st) with
                   | [_] => true
                   | _ => false
                   end)
      by (unfold step_ok; by rewrite Hc, He).
    rewrite Hs. clear Hs.
    destruct (filter (λ p, Is_true (String.eqb (commitID p) c)) (patch_table st))
      as [|p [|q l]] eqn:Ef; simpl one in Hrun; cbv beta iota in Hrun.
    { injection Hrun as <- <-. simpl. rewrite Hc. repeat split; done. }
    2:{ injection Hrun as <- <-. simpl. rewrite Hc. repeat split; done. }
    apply IH in Hrun. cbv zeta in Hrun.
    change (patch_table (set_table ?t ?s)) with t in Hrun.
    change (head (set_table ?t (set_head c st))) with c in Hrun.
    change (map (set_symbols c (join " " (iter (syms c ∖ b)))) (patch_table st))
      with (persist_ (patch_table st) (c, syms c ∖ b)) in Hrun.
    rewrite (leading_ext _ (step_ok checkout_error ctags paths (patch_table st)))
      in Hrun by (intros x; apply step_ok_persist).
    destruct Hrun as (Htab & Hhead & Hok).
    split; [exact Htab|]. split.
    + rewrite Hhead. cbn [lookup list_lookup].
      rewrite predecessor_cons by apply leading_le. done.
    + rewrite Hok. simpl. split; [intros ->; done|intros [= ->]; done].
Qed.

(** The loop as it is entered, with no symbols to compare with yet: its
    first turn extracts those of the work tree. *)
Lemma replay_entry (commits : list string) (st st' : State) (r : result unit) :
  replay_ commits None st = (r, st') →
  let k := if extract_ok ctags paths (head st)
           then leading (step_ok checkout_error ctags paths (patch_table st))
                  commits
           else 0%nat in
  patch_table st'
  = fold_left persist_ (take k (deltas_ (syms (head st)) commits))
      (patch_table st)
  ∧ head st' = match commits !! k with
               | Some c =>
                   if extract_ok ctags paths (head st)
                      && checkout_ok checkout_error c
                   then c
                   else predecessor (head st) commits k
               | None => predecessor (head st) commits k
               end
  ∧ (r = Ok tt ↔ k = length commits).
Proof.
  intros Hrun. destruct commits as [|c rest].
  - injection Hrun as <- <-. cbv zeta. by destruct (extract_ok _ _ _).
  - destruct (extract_ok ctags paths (head st)) eqn:He.
    + assert (Hsame : replay_ (c :: rest) None st
                      = replay_ (c :: rest) (Some (syms (head st))) st).
      { simpl. unfold bind at 1 5.
        rewrite get_symbols_ok by (by apply Z.eqb_eq). done. }
      rewrite Hsame in Hrun. apply replay_exact in Hrun. exact Hrun.
    + simpl in Hrun. unfold bind at 1 in Hrun.
      destruct (get_symbols ctags paths st) as [rb st1] eqn:Eb.
      apply get_symbols_cases in Eb as [-> [(e & -> & Hct)|[-> Hct]]].
      * injection Hrun as <- <-. cbv zeta. simpl. repeat split; done.
      * apply Z.eqb_eq in Hct. unfold extract_ok in He. congruence.
Qed.

Lemma completed_le (commits : list string) (prev : string)
    (table : list PatchData) :
  (completed checkout_error ctags paths commits prev table ≤ length commits)%nat.
Proof.
  unfold completed. destruct (_ && _); [apply leading_le|lia].
Qed.

(** The body of the [try]. *)
Lemma body_exact (commits : list string) (prev : string) (st st' : State)
    (r : result unit) :
  (co prev ;;; replay_ commits None)%py st = (r, st') →
  let k := completed checkout_error ctags paths commits prev (patch_table st) in
  patch_table st'
  = fold_left persist_ (take k (deltas_ (syms prev) commits)) (patch_table st)
  ∧ head st' = stopped_at checkout_error ctags paths commits prev (head st)
                 (patch_table st)
  ∧ (r = Ok tt ↔ checkout_error prev = None ∧ k = length commits).
Proof.
  intros Hrun. unfold bind at 1 in Hrun.
  destruct (co prev st) as [rc st1] eqn:Ec.
  apply checkout_cases in Ec as [(e & -> & -> & Hco)|(-> & -> & Hco)].
  - injection Hrun as <- <-.
    assert (Hc : checkout_ok checkout_error prev = false).
    { unfold checkout_ok. by destruct (checkout_error prev). }
    cbv zeta. unfold stopped_at, completed. rewrite Hc. simpl.
    repeat split; try done. by intros [? _].
  - assert (Hc : checkout_ok checkout_error prev = true)
      by (unfold checkout_ok; by rewrite Hco).
    apply replay_entry in Hrun. cbv zeta in Hrun.
    change (head (set_head prev st)) with prev in Hrun.
    change (patch_table (set_head prev st)) with (patch_table st) in Hrun.
    cbv zeta. unfold stopped_at, completed. rewrite Hc. cbn [andb].
    destruct Hrun as (Htab & Hhead & Hok).
    split; [exact Htab|]. split; [exact Hhead|].
    rewrite Hok. split; [by intros ->|by intros [_ ->]].
Qed.

(** The rows of a commit among the first [k], when it does not come again
    among them, hold its delta. *)
Lemma fold_persist_take_row (commits : list string) (prev : string)
    (table : list PatchData) (k i : nat) (c : string) (p : PatchData) :
  (i < k)%nat → commits !! i = Some c →
  c ∉ drop (S i) (take k commits) →
  p ∈ fold_left persist_ (take k (deltas_ (syms prev) commits)) table →
  commitID p = c →
  symbols p
  = Some (join " " (iter (syms c ∖ syms (predecessor prev commits i)))).
Proof.
  intros Hik Hi Hlast Hp Hc.
  set (delta := syms c ∖ syms (predecessor prev commits i)).
  assert (Hd : deltas_ (syms prev) commits !! i = Some (c, delta)).
  { rewrite (deltas_lookup _ _ _ _ Hi).
    unfold delta, predecessor. destruct i as [|j]; [done|].
    destruct (lookup_lt_is_Some_2 commits j) as [c' Hc'];
      [apply lookup_lt_Some in Hi; lia|].
    by rewrite Hc'. }
  assert (Hd' : take k (deltas_ (syms prev) commits) !! i = Some (c, delta))
    by (rewrite lookup_take_lt; done).
  rewrite <- (take_drop_middle _ _ _ Hd') in Hp.
  eapply fold_persist_last; [|exact Hp|exact Hc].
  by rewrite <- skipn_map, <- firstn_map, deltas_fst.
Qed.

(** C8. The [finally] clause checks out the reference the run started from
    on every exit path of the replay, and nothing a failure does takes a
    stored delta back. With [k] the number of leading commits whose
    checkout, symbol extraction and row lookup succeed (none when the
    checkout of, or the extraction at, the baseline fails): the table the
    run leaves is the initial one with the deltas of exactly these [k]
    commits persisted, in order, whatever the outcome; the rows of each of
    them hold its delta and the other rows are as they were. When that
    last checkout succeeds the work tree is back at the initial reference,
    and the run returns exactly when the baseline was checked out and all
    turns completed. When it fails, the run raises its error and the work
    tree stays where the replay stopped. *)
Theorem tracker_restores_reference (commits : list string) (prev : string)
    (st : State) :
  let run := track commits prev st in
  let k := completed checkout_error ctags paths commits prev (patch_table st) in
  (k ≤ length commits)%nat
  ∧ patch_table (snd run)
    = fold_left persist_ (take k (deltas_ (syms prev) commits))
        (patch_table st)
  ∧ (∀ (i : nat) (c : string),
       (i < k)%nat → commits !! i = Some c →
       c ∉ drop (S i) (take k commits) →
       ∀ p, p ∈ patch_table (snd run) → commitID p = c →
            symbols p
            = Some (join " "
                      (iter (syms c ∖ syms (predecessor prev commits i)))))
  ∧ (∀ p, p ∈ patch_table (snd run) → commitID p ∉ take k commits →
          p ∈ patch_table st)
  ∧ (checkout_error (head st) = None →
       head (snd run) = head st
       ∧ (fst run = Ok tt ↔ checkout_error prev = None ∧ k = length commits))
  ∧ (∀ err, checkout_error (head st) = Some err →
       fst run = Raise (GitCommandError err)
       ∧ head (snd run)
         = stopped_at checkout_error ctags paths commits prev (head st)
             (patch_table st)).
Proof.
  cbv zeta.
  destruct (track commits prev st) as [r st'] eqn:Hrun.
  unfold map_symbols_to_patch, try_finally in Hrun.
  unfold bind at 1 in Hrun. unfold gets at 1 in Hrun.
  destruct ((co prev ;;; replay_ commits None)%py st) as [r2 st2] eqn:Hbody.
  apply body_exact in Hbody as (Htab & Hhead & Hok). cbv zeta in Htab, Hok.
  assert (Htab' : patch_table st' = patch_table st2).
  { unfold checkout in Hrun.
    destruct (checkout_error (head st)); by injection Hrun as <- <-. }
  simpl fst. simpl snd. rewrite Htab', Htab.
  split; [apply completed_le|]. split; [done|]. split; [|split; [|split]].
  - intros i c Hik Hi Hlast p Hp Hc.
    by eapply fold_persist_take_row.
  - intros p Hp Hc. eapply fold_persist_untouched; [|exact Hp].
    by rewrite <- firstn_map, deltas_fst.
  - intros Hinit. unfold checkout in Hrun. rewrite Hinit in Hrun.
    injection Hrun as <- <-. split; [done|exact Hok].
  - intros err Hinit. unfold checkout in Hrun. rewrite Hinit in Hrun.
    injection Hrun as <- <-. split; [done|exact Hhead].
Qed.

End TrackerProofs.

Section TrackerExamples.

Import Symbols TrackerNotions Fixtures.

Lemma tracker_persists_deltas_witness :
  ∃ st',
    map_symbols_to_patch checkout_all ctags_ex elements ["c1"; "c2"] paths_ex
      "base" tracker_state = (Ok tt, st')
    ∧ patch_table st'
      = fold_left (persist elements)
          (deltas ctags_ex paths_ex (symbols_at ctags_ex paths_ex "base")
             ["c1"; "c2"])
          rows_ex
    ∧ ∀ (i : nat) (c : string),
        ["c1"; "c2"] !! i = Some c →
        let delta := symbols_at ctags_ex paths_ex c
                     ∖ symbols_at ctags_ex paths_ex
                         (predecessor "base" ["c1"; "c2"] i) in
        deltas ctags_ex paths_ex (symbols_at ctags_ex paths_ex "base")
          ["c1"; "c2"] !! i = Some (c, delta)
        ∧ (∃ p, p ∈ patch_table st' ∧ commitID p = c)
        ∧ (c ∉ drop (S i) ["c1"; "c2"] →
           ∀ p, p ∈ patch_table st' → commitID p = c →
                symbols p = Some (join " " (elements delta)))
        ∧ (list_to_set (elements delta) : gset string) = delta
        ∧ (∀ s, s ∈ symbols_at ctags_ex paths_ex
                      (predecessor "base" ["c1"; "c2"] i) →
                s ∉ elements delta).
Proof.
  apply (tracker_persists_deltas checkout_all ctags_ex elements paths_ex
           ["c1"; "c2"] "base" tracker_state).
  - reflexivity.
  - reflexivity.
  - reflexivity.
  - intros c Hc. apply elem_of_cons in Hc as [->|Hc];
      [|apply list_elem_of_singleton in Hc as ->];
      (split; [reflexivity|]; split; [reflexivity|]);
      eexists; vm_compute; reflexivity.
  - intros X. reflexivity.
Defined.

Lemma tracker_restores_reference_witness :
  completed checkout_all ctags_ex paths_ex ["c1"; "c9"; "c2"] "base" rows_ex
  = 1%nat
  ∧ checkout_all (head tracker_state) = None
  ∧ let run := map_symbols_to_patch checkout_all ctags_ex elements
                 ["c1"; "c9"; "c2"] paths_ex "base" tracker_state in
    let k := completed checkout_all ctags_ex paths_ex ["c1"; "c9"; "c2"]
               "base" (patch_table tracker_state) in
    (k ≤ 3)%nat
    ∧ patch_table (snd run)
      = fold_left (persist elements)
          (take k (deltas ctags_ex paths_ex
                     (symbols_at ctags_ex paths_ex "base")
                     ["c1"; "c9"; "c2"]))
          (patch_table tracker_state)
    ∧ (∀ (i : nat) (c : string),
         (i < k)%nat → ["c1"; "c9"; "c2"] !! i = Some c →
         c ∉ drop (S i) (take k ["c1"; "c9"; "c2"]) →
         ∀ p, p ∈ patch_table (snd run) → commitID p = c →
              symbols p
              = Some (join " "
                        (elements
                           (symbols_at ctags_ex paths_ex c
                            ∖ symbols_at ctags_ex paths_ex
                                (predecessor "base" ["c1"; "c9"; "c2"] i)))))
    ∧ (∀ p, p ∈ patch_table (snd run) →
            commitID p ∉ take k ["c1"; "c9"; "c2"] →
            p ∈ patch_table tracker_state)
    ∧ (checkout_all (head tracker_state) = None →
         head (snd run) = head tracker_state
         ∧ (fst run = Ok tt
            ↔ checkout_all "base" = None ∧ k = 3%nat))
    ∧ (∀ err, checkout_all (head tracker_state) = Some err →
         fst run = Raise (GitCommandError err)
         ∧ head (snd run)
           = stopped_at checkout_all ctags_ex paths_ex ["c1"; "c9"; "c2"]
               "base" (head tracker_state) (patch_table tracker_state)).
Proof.
  split; [reflexivity|]. split; [reflexivity|].
  apply (tracker_restores_reference checkout_all ctags_ex elements paths_ex
           ["c1"; "c9"; "c2"] "base" tracker_state).
Defined.

(** C8, as stated, fails on the exit paths where the checkout of the
    [finally] clause is itself refused. After a replay that the extraction
    tool stops at its second commit, and after one that completes, the run
    raises the error of that checkout and the work tree is left at the
    last commit checked out, not at the reference the run started from.
    The deltas stored before stay stored. *)
Lemma tracker_restore_counterexample :
  map_symbols_to_patch checkout_not_master ctags_ex elements
    ["c1"; "c9"; "c2"] paths_ex "base" tracker_state
  = (Raise (GitCommandError
              "error: Your local changes would be overwritten by checkout"),
     {| head := "c9";
        patch_table :=
          [ {| patchID := 1; commitID := "c1"; commitTime := 10;
               symbols := Some "c" |};
            {| patchID := 2; commitID := "c2"; commitTime := 20;
               symbols := None |};
            {| patchID := 3; commitID := "c3"; commitTime := 30;
               symbols := None |} ] |})
  ∧ map_symbols_to_patch checkout_not_master ctags_ex elements
      ["c1"; "c2"] paths_ex "base" tracker_state
    = (Raise (GitCommandError
                "error: Your local changes would be overwritten by checkout"),
       {| head := "c2";
          patch_table :=
            [ {| patchID := 1; commitID := "c1"; commitTime := 10;
                 symbols := Some "c" |};
              {| patchID := 2; commitID := "c2"; commitTime := 20;
                 symbols := Some "d" |};
              {| patchID := 3; commitID := "c3"; commitTime := 30;
                 symbols := None |} ] |})
  ∧ head (snd (map_symbols_to_patch checkout_not_master ctags_ex elements
                 ["c1"; "c9"; "c2"] paths_ex "base" tracker_state))
    ≠ head tracker_state
  ∧ stopped_at checkout_not_master ctags_ex paths_ex ["c1"; "c9"; "c2"]
      "base" (head tracker_state) (patch_table tracker_state) = "c9".
Proof.
  split; [vm_compute; reflexivity|]. split; [vm_compute; reflexivity|].
  split; [|vm_compute; reflexivity].
  vm_compute. intros H. discriminate H.
Qed.

(** The extraction fails at the second commit: the run raises, the work
    tree is back at master and the delta of the first commit is stored. *)
Example tracker_interrupted :
  map_symbols_to_patch checkout_all ctags_ex elements ["c1"; "c9"; "c2"]
    paths_ex "base" tracker_state
  = (Raise (CalledProcessError 1),
     {| head := "master";
        patch_table :=
          [ {| patchID := 1; commitID := "c1"; commitTime := 10;
               symbols := Some "c" |};
            {| patchID := 2; commitID := "c2"; commitTime := 20;
               symbols := None |};
            {| patchID := 3; commitID := "c3"; commitTime := 30;
               symbols := None |} ] |}).
Proof. vm_compute. reflexivity. Qed.

(** The history of the specification's example: the deltas are c and d, and
    against the reference list a, c only the second commit lacks a symbol. *)
Example tracker_then_checker :
  let st := snd (map_symbols_to_patch checkout_all ctags_ex elements
                   ["c1"; "c2"] paths_ex "base" tracker_state) in
  map symbols (patch_table st) = [Some "c"; Some "d"; None]
  ∧ symbol_checker binary_ne_space reference_file (patch_table st) = ["c2"].
Proof. vm_compute. split; reflexivity. Qed.

(** A commit that introduces no symbol stores the empty string; a database
    that compares byte by byte keeps the row, and the checker returns the
    commit unless the reference file has an empty line. *)
Example empty_delta_row :
  symbol_checker binary_ne_space reference_file
    [ {| patchID := 1; commitID := "c1"; commitTime := 10; symbols := Some "" |} ]
  = ["c1"].
Proof. vm_compute. reflexivity. Qed.

End TrackerExamples.

(** * Further properties of the code *)

(** ** Texts: strip, split and join *)

Section TextFacts.

Import Text.

Lemma rstrip_idem (s : string) : rstrip (rstrip s) = rstrip s.
Proof.
  induction s as [|c s IH]; [done|]. simpl.
  destruct (is_space c && String.eqb (rstrip s) "") eqn:E; [done|].
  simpl. by rewrite IH, E.
Qed.

Lemma lstrip_rstrip_lstrip (s : string) : lstrip (rstrip (lstrip s)) = rstrip (lstrip s).
Proof.
  induction s as [|c s IH]; [done|]. simpl.
  destruct (is_space c) eqn:E; [done|].
  simpl. rewrite E. simpl. by rewrite E.
Qed.

Lemma strip_idem (s : string) : strip (strip s) = strip s.
Proof. unfold strip. by rewrite lstrip_rstrip_lstrip, rstrip_idem. Qed.

Lemma lower_empty (s : string) : lower s = "" → s = "".
Proof. by destruct s. Qed.

Lemma prefix_empty (s : string) : String.prefix "" s = true.
Proof. by destruct s. Qed.

Lemma prefix_append (p s : string) : String.prefix p (String.append p s) = true.
Proof.
  induction p as [|c p IH]; simpl; [apply prefix_empty|].
  destruct (ascii_dec c c); [done|congruence].
Qed.

Lemma prefix_split (p s : string) :
  String.prefix p s = true → ∃ rest, s = String.append p rest.
Proof.
  revert s. induction p as [|c p IH]; intros s H; [by exists s|].
  destruct s as [|c' s]; [done|]. simpl in H.
  destruct (ascii_dec c c') as [->|]; [|done].
  destruct (IH s H) as [rest ->]. by exists rest.
Qed.

Lemma contains_prefix (needle s : string) :
  String.prefix needle s = true → contains needle s = true.
Proof. intros H. destruct s; cbn [contains]; by rewrite H. Qed.

Lemma contains_append_r (needle a s : string) :
  contains needle s = true → contains needle (String.append a s) = true.
Proof.
  intros H. induction a as [|c a IH]; [done|]. simpl.
  rewrite IH. apply orb_true_r.
Qed.

Lemma sep_char (sep c : ascii) (s : string) :
  String.prefix (String sep EmptyString) (String c s) = Ascii.eqb c sep.
Proof.
  simpl. rewrite prefix_empty.
  destruct (ascii_dec sep c) as [->|Hne].
  - by rewrite Ascii.eqb_refl.
  - symmetry. apply Ascii.eqb_neq. congruence.
Qed.

Lemma after_first_append (sep : ascii) (a rest : string) :
  contains (String sep EmptyString) a = false →
  after_first sep (String.append a (String sep rest)) = rest.
Proof.
  induction a as [|c a IH]; intros H.
  - simpl. by rewrite Ascii.eqb_refl.
  - change (contains (String sep EmptyString) (String c a))
      with (String.prefix (String sep EmptyString) (String c a)
            || contains (String sep EmptyString) a) in H.
    rewrite sep_char in H. apply orb_false_elim in H as [Hc Ha].
    simpl. rewrite Hc.
    rewrite (contains_append_r _ a (String sep rest));
      [by apply IH|].
    apply contains_prefix. rewrite sep_char. apply Ascii.eqb_refl.
Qed.

Lemma split_append (sep : ascii) (a rest : string) :
  contains (String sep EmptyString) a = false →
  split sep (String.append a (String sep rest)) = a :: split sep rest.
Proof.
  induction a as [|c a IH]; intros H.
  - simpl. by rewrite Ascii.eqb_refl.
  - change (contains (String sep EmptyString) (String c a))
      with (String.prefix (String sep EmptyString) (String c a)
            || contains (String sep EmptyString) a) in H.
    rewrite sep_char in H. apply orb_false_elim in H as [Hc Ha].
    simpl. by rewrite Hc, (IH Ha).
Qed.

(** Splitting a joined list at the separator gives the list back when the
    list is not empty and no element has the separator. *)
Lemma split_join (sep : ascii) (l : list string) :
  l ≠ [] →
  Forall (λ x, contains (String sep EmptyString) x = false) l →
  split sep (join (String sep EmptyString) l) = l.
Proof.
  intros Hne Hall. induction Hall as [|x l Hx Hall IH]; [done|].
  destruct l as [|y l].
  - simpl. by apply split_no_sep.
  - change (join (String sep EmptyString) (x :: y :: l))
      with (String.append x (String sep (join (String sep EmptyString) (y :: l)))).
    rewrite (split_append _ _ _ Hx). f_equal. by apply IH.
Qed.

Lemma split_breaks_one_line (s : string) :
  s ≠ "" → one_line s = true → splitlines s = [s].
Proof.
  unfold splitlines, one_line.
  induction s as [|c s IH]; intros Hne H; [done|].
  simpl in *. apply andb_prop in H as [Hc Hs].
  apply negb_true_iff in Hc. rewrite Hc.
  destruct s as [|c' s]; [done|]. by rewrite IH.
Qed.

Lemma splitlines_append (a rest : string) :
  one_line a = true →
  splitlines (String.append a (String (ascii_of_nat 10) rest))
  = a :: splitlines rest.
Proof.
  unfold splitlines, one_line. induction a as [|c a IH]; intros H.
  - simpl. by destruct rest.
  - simpl in H. apply andb_prop in H as [Hc Ha]. apply negb_true_iff in Hc.
    simpl. by rewrite Hc, (IH Ha).
Qed.

Lemma split_breaks_all_chars (brk : ascii → bool) (n : nat) (s : string) :
  (String.length s ≤ n)%nat →
  Forall (λ l, all_chars (λ c, negb (brk c)) l = true) (split_breaks brk s).
Proof.
  revert s. induction n as [|n IH]; intros [|c s] Hlen; simpl in *;
    try (by constructor); [lia|].
  destruct (brk c) eqn:Hc.
  - constructor; [done|].
    destruct s as [|c' s]; [by constructor|].
    destruct (_ && _); apply IH; simpl in *; lia.
  - assert (Hs : Forall (λ l, all_chars (λ c, negb (brk c)) l = true)
                   (split_breaks brk s)) by (apply IH; lia).
    destruct (split_breaks brk s) as [|w ws].
    + constructor; [|done]. simpl. by rewrite Hc.
    + apply Forall_cons in Hs as [Hw Hws]. constructor; [|done].
      simpl. by rewrite Hc, Hw.
Qed.

(** The lines of a text have no line boundary. *)
Lemma splitlines_one_line (s : string) :
  Forall (λ l, one_line l = true) (splitlines s).
Proof. by apply (split_breaks_all_chars is_linebreak (String.length s)). Qed.

(** Splitting joined lines gives the lines back when none is empty and
    none has a line boundary. *)
Lemma splitlines_join (ls : list string) :
  Forall (λ l, l ≠ "" ∧ one_line l = true) ls →
  splitlines (join (String (ascii_of_nat 10) EmptyString) ls) = ls.
Proof.
  intros Hall. induction Hall as [|x l [Hne Hx] Hall IH]; [done|].
  destruct l as [|y l].
  - simpl. by apply split_breaks_one_line.
  - change (join (String (ascii_of_nat 10) EmptyString) (x :: y :: l))
      with (String.append x (String (ascii_of_nat 10)
              (join (String (ascii_of_nat 10) EmptyString) (y :: l)))).
    rewrite (splitlines_append _ _ Hx). by rewrite IH.
Qed.

End TextFacts.

(** ** parse_log: what is stored and counted *)

Section ParseLogMore.

Import ParseData Text LogNotions.

Variable DB : Type.
Variable Match : Type.
Variable check_commit_present : DB → string → option Distro → bool.
Variable insert_upstream : Patch → DB → DB.
Variable insertInto : Match → option Distro → Patch → DB → DB.
Variable get_matching_patch : DB → Patch → confidence_weight → option Match.
Variable tree_diff : Commit → list Diff.

#[local] Abbreviation log_body :=
  (parse_log_body DB Match check_commit_present insert_upstream insertInto
     get_matching_patch tree_diff).
#[local] Abbreviation log :=
  (parse_log DB Match check_commit_present insert_upstream insertInto
     get_matching_patch tree_diff).

Lemma parse_log_body_ok (distro : option Distro) (indicator : string)
    (c : Commit) (st st' : LogState DB) :
  log_body distro indicator c st = (Ok tt, st') →
  (has_parent c = false ∧ st' = st)
  ∨ (has_parent c = true
     ∧ check_commit_present (db DB st) (hexsha c) distro = true
     ∧ db DB st' = db DB st
     ∧ count_added DB st' = count_added DB st
     ∧ count_present DB st' = S (count_present DB st))
  ∨ (has_parent c = true
     ∧ check_commit_present (db DB st) (hexsha c) distro = false
     ∧ count_added DB st' = S (count_added DB st)
     ∧ count_present DB st' = count_present DB st).
Proof.
  unfold parse_log_body, has_parent. unfold bind, lift.
  destruct (parse_commit indicator c) as [patch|e] eqn:Hp; [|done].
  assert (Hid : p_commit_id patch = hexsha c).
  { unfold parse_commit in Hp. unfold rbind in Hp.
    repeat match type of Hp with
           | match ?x with _ => _ end = _ => destruct x; try discriminate Hp
           end.
    by injection Hp as <-. }
  destruct (length (parents c) =? 0)%nat.
  - unfold ret. intros [= <-]. by left.
  - unfold modify. simpl. rewrite Hid.
    destruct (check_commit_present _ _ _); intros [= <-]; right; [left|right];
      by repeat split.
Qed.

(** X: when [parse_log] returns, the two counts it reports add up to the
    number of commits that have a parent; a history of parentless commits
    only leaves the database as it was. *)
Theorem parse_log_counts (commits : list Commit) (distro : option Distro)
    (indicator : string) (db0 db' : DB) (added present : nat) :
  log commits distro indicator db0 = (Ok (added, present), db') →
  (added + present = length (filter (λ c, Is_true (has_parent c)) commits))%nat
  ∧ (Forall (λ c, has_parent c = false) commits → db' = db0).
Proof.
  unfold parse_log.
  set (st0 := {| db := db0; count_added := 0; count_present := 0 |}).
  destruct (for_each commits _ st0) as [[[]|e] st] eqn:Hrun; [|done].
  intros [= <- <- <-].
  assert (Hgen : ∀ (l : list Commit) (s s' : LogState DB),
            for_each l (log_body distro indicator) s = (Ok tt, s') →
            (count_added DB s' + count_present DB s'
             = count_added DB s + count_present DB s
               + length (filter (λ c, Is_true (has_parent c)) l))%nat
            ∧ (Forall (λ c, has_parent c = false) l → db DB s' = db DB s)).
  { clear. induction l as [|c l IH]; intros s s' H.
    - injection H as <-. simpl. split; [lia|done].
    - simpl in H. unfold bind in H.
      destruct (log_body distro indicator c s) as [[[]|e] s1] eqn:Hc; [|done].
      apply IH in H as [Hcount Hdb].
      rewrite filter_cons.
      apply parse_log_body_ok in Hc
        as [[Hp ->]|[(Hp & _ & Hd & Ha & Hpr)|(Hp & _ & Ha & Hpr)]];
        rewrite Hp; simpl.
      + split; [lia|]. intros Hall. apply Forall_cons in Hall as [_ Hall]. auto.
      + split; [lia|]. intros Hall. apply Forall_cons in Hall as [Hc' _].
        congruence.
      + split; [lia|]. intros Hall. apply Forall_cons in Hall as [Hc' _].
        congruence. }
  apply Hgen in Hrun as [Hcount Hdb]. simpl in *. split; [lia|done].
Qed.

End ParseLogMore.

Section ParseTextMore.

Import ParseData Text.

(** X: every line kept for the description is stripped, not empty, and,
    whatever its case, does not start with one of the trailer phrases. *)
Theorem description_lines_clean (msg : string) :
  Forall (λ line, line ≠ "" ∧ strip line = line
                  ∧ startswith_any (lower line) ignore_phrases = false)
         (description_lines (split_message msg)).
Proof.
  unfold description_lines.
  destruct (1 <? length (split_message msg))%nat; [|by constructor].
  apply Forall_forall. intros line Hin.
  apply list_elem_of_filter in Hin as [Hkeep Hin].
  apply Is_true_true in Hkeep. unfold should_keep_line in Hkeep.
  destruct (String.eqb_spec (lower line) "") as [|Hne]; [done|].
  destruct (startswith_any (lower line) ignore_phrases) eqn:Hs; [done|].
  split; [|split; [|done]].
  - intros ->. by apply Hne.
  - assert (Hin' : line ∈ split_message msg).
    { destruct (split_message msg); [done|]. apply elem_of_cons. by right. }
    unfold split_message in Hin'.
    apply (list_elem_of_fmap_1 strip) in Hin' as (l0 & -> & _).
    apply strip_idem.
Qed.

Lemma startswith_nonempty (line : string) :
  startswith_any line ["+"; "-"] = true → line ≠ "".
Proof. by intros H ->. Qed.

(** X: the lines of a parsed diff are the lines of the diff that start
    with + or -, so each of them starts with + or -, and parsing a parsed
    diff changes nothing. *)
Theorem parse_diff_lines (d : string) :
  splitlines (parse_diff d)
  = filter (λ line, Is_true (startswith_any line ["+"; "-"])) (splitlines d)
  ∧ Forall (λ line, startswith line "+" = true ∨ startswith line "-" = true)
           (splitlines (parse_diff d))
  ∧ parse_diff (parse_diff d) = parse_diff d.
Proof.
  assert (Hlines : splitlines (parse_diff d)
    = filter (λ line, Is_true (startswith_any line ["+"; "-"])) (splitlines d)).
  { unfold parse_diff. apply splitlines_join.
    apply Forall_forall. intros line Hin.
    apply list_elem_of_filter in Hin as [Hs Hin]. apply Is_true_true in Hs.
    split; [by apply startswith_nonempty|].
    pose proof (splitlines_one_line d) as Hall.
    rewrite Forall_forall in Hall. by apply Hall. }
  split; [exact Hlines|]. split.
  - rewrite Hlines. apply Forall_forall. intros line Hin.
    apply list_elem_of_filter in Hin as [Hs _]. apply Is_true_true in Hs.
    unfold startswith_any in Hs. simpl in Hs.
    apply orb_prop in Hs as [Hs|Hs]; [by left|].
    apply orb_prop in Hs as [Hs|Hs]; [by right|done].
  - unfold parse_diff at 1. rewrite Hlines. unfold parse_diff. f_equal.
    apply list_filter_filter_l. tauto.
Qed.

End ParseTextMore.

Section ParseLogMoreExamples.

Import ParseData LogNotions Fixtures MoreFixtures.

Lemma parse_log_counts_witness :
  (2 + 0 = length (filter (λ c, Is_true (has_parent c))
                     [root_commit; fixes_commit; buglink_commit]))%nat
  ∧ (Forall (λ c, has_parent c = false)
        [root_commit; fixes_commit; buglink_commit] →
     snd (parse_log (list Patch) unit list_check list_insert_upstream
            list_insertInto no_match no_diff
            [root_commit; fixes_commit; buglink_commit] None "Upstream" [])
     = []).
Proof.
  apply (parse_log_counts (list Patch) unit list_check list_insert_upstream
           list_insertInto no_match no_diff
           [root_commit; fixes_commit; buglink_commit] None "Upstream" []).
  vm_compute. reflexivity.
Defined.

End ParseLogMoreExamples.

(** ** The tracked revisions *)

Section RevisionsProofs.

Import Revisions.

Variable autoflush : bool.
Variable new_id : list MonitoringSubjects → Z.

#[local] Abbreviation add_revs := (add_revisions autoflush new_id).
#[local] Abbreviation update := (update_revisions_for_distro autoflush new_id).

Lemma is_subject_spec (d rev : string) (s : MonitoringSubjects) :
  is_subject d rev s ↔ distroID s = d ∧ revision s = rev.
Proof.
  unfold is_subject. rewrite andb_True, !Is_true_true, !String.eqb_eq. tauto.
Qed.

Lemma elem_of_revisions_of (d rev : string) (rows : list MonitoringSubjects) :
  rev ∈ revisions_of d rows ↔ ∃ s, s ∈ rows ∧ distroID s = d ∧ revision s = rev.
Proof.
  unfold revisions_of. rewrite elem_of_list_to_set.
  change (map revision) with (fmap (M:=list) revision).
  rewrite list_elem_of_fmap. split.
  - intros (s & -> & Hs). apply list_elem_of_filter in Hs as [Hd Hs].
    apply Is_true_true, String.eqb_eq in Hd. eauto.
  - intros (s & Hs & Hd & Hr). exists s. split; [done|].
    apply list_elem_of_filter. split; [|done].
    by apply Is_true_true, String.eqb_eq.
Qed.

Lemma elem_of_delete_revisions (d : string) (revs : list string)
    (rows : list MonitoringSubjects) (s : MonitoringSubjects) :
  s ∈ delete_revisions d revs rows ↔
  s ∈ rows ∧ (distroID s = d → revision s ∈ revs).
Proof.
  unfold delete_revisions. rewrite list_elem_of_filter.
  rewrite negb_True, andb_True, negb_True, bool_decide_spec, Is_true_true,
    String.eqb_eq.
  split.
  - intros [Hn Hs]. split; [done|]. intros Hd.
    destruct (decide (revision s ∈ revs)); [done|]. exfalso. apply Hn. tauto.
  - intros [Hs Himp]. split; [|done]. intros [Hd Hn]. auto.
Qed.

Lemma add_revisions_pending (d : string) (revs : list string)
    (table pending : list MonitoringSubjects) (s : MonitoringSubjects) :
  s ∈ pending → s ∈ add_revs d revs table pending.
Proof.
  revert pending. induction revs as [|x revs IH]; intros pending Hs; simpl; [done|].
  destruct (filter _ _); apply IH; [|done].
  apply elem_of_app. by left.
Qed.

Lemma add_revisions_sound (d : string) (revs : list string)
    (table pending : list MonitoringSubjects) (s : MonitoringSubjects) :
  s ∈ add_revs d revs table pending →
  s ∈ pending ∨ (distroID s = d ∧ revision s ∈ revs).
Proof.
  revert pending. induction revs as [|x revs IH]; intros pending Hs; simpl in Hs;
    [by left|].
  destruct (filter _ _).
  - apply IH in Hs as [Hs|[? ?]].
    + apply elem_of_app in Hs as [Hs|Hs]; [by left|].
      apply list_elem_of_singleton in Hs as ->. right. simpl. split; [done|].
      apply elem_of_cons. by left.
    + right. split; [done|]. apply elem_of_cons. by right.
  - apply IH in Hs as [Hs|[? ?]]; [by left|].
    right. split; [done|]. apply elem_of_cons. by right.
Qed.

Lemma add_revisions_complete (d : string) (revs : list string)
    (table pending : list MonitoringSubjects) (x : string) :
  x ∈ revs →
  ∃ s, (s ∈ table ∨ s ∈ add_revs d revs table pending) ∧
       distroID s = d ∧ revision s = x.
Proof.
  revert pending. induction revs as [|y revs IH]; intros pending Hx.
  - by apply elem_of_nil in Hx.
  - apply elem_of_cons in Hx as [->|Hx];
      [|simpl; destruct (filter _ _); by apply IH].
    simpl. destruct (filter _ _) as [|s l] eqn:Hf.
    + exists {| monitoringSubjectID := new_id (table ++ pending);
                distroID := d; revision := y |}.
      split; [|done]. right. apply add_revisions_pending.
      apply elem_of_app. right. by apply list_elem_of_singleton.
    + assert (Hs : s ∈ filter (λ s, is_subject d y s)
                       (if autoflush then table ++ pending else table)).
      { rewrite Hf. apply elem_of_cons. by left. }
      apply list_elem_of_filter in Hs as [Hrec Hs].
      apply is_subject_spec in Hrec. exists s. split; [|done].
      assert (s ∈ table ∨ s ∈ pending) as [?|?]; [|by left|].
      { clear -Hs. destruct autoflush; [apply elem_of_app in Hs|]; tauto. }
      right. by apply add_revisions_pending.
Qed.

Lemma add_revisions_nothing (d : string) (revs : list string)
    (table : list MonitoringSubjects) :
  (∀ x, x ∈ revs → ∃ s, s ∈ table ∧ distroID s = d ∧ revision s = x) →
  add_revs d revs table [] = [].
Proof.
  induction revs as [|y revs IH]; intros Hall; simpl; [done|].
  destruct (Hall y) as (s & Hs & Hrec); [apply elem_of_cons; by left|].
  destruct (filter _ _) as [|s' l] eqn:Hf.
  - exfalso. eapply (filter_nil_not_elem_of _ _ s); [exact Hf| |].
    + by apply is_subject_spec.
    + clear -Hs. destruct autoflush; [|done]. apply elem_of_app. by left.
  - apply IH. intros x Hx. apply Hall. apply elem_of_cons. by right.
Qed.

Lemma delete_revisions_nothing (d : string) (revs : list string)
    (rows : list MonitoringSubjects) :
  (∀ s, s ∈ rows → distroID s = d → revision s ∈ revs) →
  delete_revisions d revs rows = rows.
Proof.
  induction rows as [|s rows IH]; intros Hall; [done|].
  unfold delete_revisions in *. rewrite filter_cons.
  destruct (decide _) as [_|Hn].
  - f_equal. apply IH. intros s' Hs'. apply Hall. apply elem_of_cons. by right.
  - exfalso. apply Hn. rewrite negb_True, andb_True, negb_True, bool_decide_spec.
    intros [Hd Hnot]. apply Hnot. apply Hall; [apply elem_of_cons; by left|].
    by apply Is_true_true, String.eqb_eq in Hd.
Qed.

Lemma elem_of_update (d : string) (revs : list string)
    (rows : list MonitoringSubjects) (s : MonitoringSubjects) :
  s ∈ update d revs rows →
  (s ∈ rows ∨ distroID s = d) ∧ (distroID s = d → revision s ∈ revs).
Proof.
  unfold update_revisions_for_distro. intros Hs.
  apply elem_of_app in Hs as [Hs|Hs].
  - apply elem_of_delete_revisions in Hs as [? ?]. split; [by left|done].
  - apply add_revisions_sound in Hs as [Hs|[? ?]]; [by apply elem_of_nil in Hs|].
    split; [by right|done].
Qed.

Lemma revisions_of_update (d : string) (revs : list string)
    (rows : list MonitoringSubjects) :
  revisions_of d (update d revs rows) = list_to_set revs.
Proof.
  apply set_eq. intros x. rewrite elem_of_revisions_of, elem_of_list_to_set. split.
  - intros (s & Hs & Hd & <-). by apply elem_of_update in Hs as [_ Hs]; auto.
  - intros Hx. unfold update_revisions_for_distro.
    destruct (add_revisions_complete d revs (delete_revisions d revs rows) [] x Hx)
      as (s & Hs & Hrec).
    exists s. split; [|done]. apply elem_of_app. tauto.
Qed.

Lemma update_other_distros (d d' : string) (revs : list string)
    (rows : list MonitoringSubjects) :
  d' ≠ d →
  filter (λ s, Is_true (String.eqb (distroID s) d')) (update d revs rows)
  = filter (λ s, Is_true (String.eqb (distroID s) d')) rows.
Proof.
  intros Hne. unfold update_revisions_for_distro. rewrite filter_app.
  assert (Hadd : ∀ table pending,
            filter (λ s, Is_true (String.eqb (distroID s) d'))
                   (add_revs d revs table pending)
            = filter (λ s, Is_true (String.eqb (distroID s) d')) pending).
  { intros table. induction revs as [|x l IH]; intros pending; simpl; [done|].
    destruct (filter (λ s, Is_true (is_subject d x s)) _); rewrite IH; [|done].
    rewrite filter_app, filter_cons. simpl.
    destruct (decide _) as [Hs|_]; [|by rewrite filter_nil, app_nil_r].
    apply Is_true_true, String.eqb_eq in Hs. congruence. }
  rewrite Hadd, filter_nil, app_nil_r.
  unfold delete_revisions. induction rows as [|s rows IH]; [done|].
  rewrite !filter_cons.
  destruct (decide (Is_true (String.eqb (distroID s) d'))) as [Hs|Hs].
  - apply Is_true_true, String.eqb_eq in Hs.
    destruct (decide _) as [_|Hn].
    + rewrite filter_cons. destruct (decide _) as [_|Hn']; [by rewrite IH|].
      exfalso. apply Hn'. by apply Is_true_true, String.eqb_eq.
    + exfalso. apply Hn. rewrite negb_True, andb_True, Is_true_true, String.eqb_eq.
      intros [? _]. congruence.
  - destruct (decide _); [|done].
    rewrite filter_cons. by destruct (decide _).
Qed.

(** X: after [update_revisions_for_distro] the revisions tracked for the
    distro are exactly those of the list; a subject whose revision is still
    in the list keeps its row, and so its key; the subjects of every other
    distro are what they were; a second run with the same list changes
    nothing. *)
Theorem update_revisions_set_equality (d : string) (revs : list string)
    (rows : list MonitoringSubjects) :
  revisions_of d (update d revs rows) = list_to_set revs
  ∧ (∀ s, s ∈ rows → distroID s = d → revision s ∈ revs →
          s ∈ update d revs rows)
  ∧ (∀ d', d' ≠ d →
       filter (λ s, Is_true (String.eqb (distroID s) d')) (update d revs rows)
       = filter (λ s, Is_true (String.eqb (distroID s) d')) rows)
  ∧ update d revs (update d revs rows) = update d revs rows.
Proof.
  split; [apply revisions_of_update|]. split; [|split].
  - intros s Hs Hd Hr. unfold update_revisions_for_distro.
    apply elem_of_app. left. by apply elem_of_delete_revisions.
  - intros d' Hne. by apply update_other_distros.
  - unfold update_revisions_for_distro at 1.
    rewrite delete_revisions_nothing.
    + rewrite add_revisions_nothing; [by rewrite app_nil_r|].
      intros x Hx.
      rewrite <- (elem_of_list_to_set (C:=gset string)),
        <- (revisions_of_update d revs rows) in Hx.
      by apply elem_of_revisions_of in Hx.
    + intros s Hs Hd. by apply elem_of_update in Hs as [_ Hs]; auto.
Qed.

(** *** The selection of the tags *)

Lemma last_two_length (A : Type) (l : list A) : (length (last_two l) ≤ 2)%nat.
Proof. unfold last_two. rewrite length_drop. lia. Qed.

Lemma last_two_suffix (A : Type) (l : list A) : last_two l `suffix_of` l.
Proof. unfold last_two. apply suffix_drop. Qed.

Lemma elem_of_last_two (A : Type) (l : list A) (x : A) : x ∈ last_two l → x ∈ l.
Proof.
  intros H. destruct (last_two_suffix A l) as [k Hk]. rewrite Hk.
  apply elem_of_app. by right.
Qed.

Variable Repo : Type.
Variable ls_remote : Repo → list string → result string.

#[local] Abbreviation update_tracked :=
  (update_tracked_revisions autoflush new_id Repo ls_remote).

(** X: for an Ubuntu distro whose tags can be listed, the revisions tracked
    afterwards are the selected tags: at most two, the last of the listed
    names that have azure and none of edge, cvm, fde, each the part of a
    line after its first slash. When no listed name passes, no revision of
    the distro stays tracked. A failing listing raises and changes nothing;
    a distro whose id does not start with Ubuntu is left alone. *)
Theorem update_tracked_revisions_policy (d : string) (g : Repo)
    (rows : list MonitoringSubjects) :
  (∀ output,
      startswith d "Ubuntu" = true →
      ls_remote g ["--t"; "--refs"; "--sort=v:refname"; d] = Ok output →
      ∃ rows',
        update_tracked d g rows = (Ok tt, rows')
        ∧ revisions_of d rows' = list_to_set (select_tags output)
        ∧ (length (select_tags output) ≤ 2)%nat
        ∧ (∀ tag, tag ∈ select_tags output →
              tag_policy tag = true
              ∧ ∃ line, line ∈ split (ascii_of_nat 10) output
                        ∧ tag = after_first "/" line)
        ∧ (filter (λ x, Is_true (tag_policy x))
             (map (after_first "/") (split (ascii_of_nat 10) output)) = [] →
           filter (λ s, Is_true (String.eqb (distroID s) d)) rows' = []))
  ∧ (∀ e,
      startswith d "Ubuntu" = true →
      ls_remote g ["--t"; "--refs"; "--sort=v:refname"; d] = Raise e →
      update_tracked d g rows = (Raise e, rows))
  ∧ (startswith d "Ubuntu" = false → update_tracked d g rows = (Ok tt, rows)).
Proof.
  split; [|split].
  - intros output Hub Hls. eexists. split; [|split; [|split; [|split]]].
    + unfold update_tracked_revisions, bind, lift, modify. by rewrite Hub, Hls.
    + apply revisions_of_update.
    + apply last_two_length.
    + intros tag Htag. unfold select_tags in Htag.
      apply elem_of_last_two, list_elem_of_filter in Htag as [Hp Hin].
      split; [by apply Is_true_true|].
      apply (list_elem_of_fmap_1 (after_first "/")) in Hin as (line & -> & Hin).
      eauto.
    + intros Hnone. unfold select_tags. rewrite Hnone.
      change (last_two []) with (@nil string).
      destruct (filter _ (update d [] rows)) as [|s l] eqn:Hf; [done|].
      assert (Hs : s ∈ filter (λ s, Is_true (String.eqb (distroID s) d))
                         (update d [] rows))
        by (rewrite Hf; apply elem_of_cons; by left).
      apply list_elem_of_filter in Hs as [Hd Hs].
      apply Is_true_true, String.eqb_eq in Hd.
      apply elem_of_update in Hs as [_ Hs]. by apply Hs, elem_of_nil in Hd.
  - intros e Hub Hls.
    unfold update_tracked_revisions, bind, lift. by rewrite Hub, Hls.
  - intros Hub. unfold update_tracked_revisions. by rewrite Hub.
Qed.

End RevisionsProofs.

Section RevisionsExamples.

Import Revisions Fixtures MoreFixtures.

Example select_tags_listing :
  select_tags tags_listing = ["tags/v1-azure"; "tags/v3-azure"].
Proof. vm_compute. reflexivity. Qed.

Example update_tracked_rows :
  update_tracked_revisions true next_key unit toy_ls_remote "Ubuntu18.04" tt
    subjects_ex
  = (Ok tt,
     [ {| monitoringSubjectID := 2; distroID := "Ubuntu18.04";
          revision := "tags/v1-azure" |};
       {| monitoringSubjectID := 3; distroID := "Debian9"; revision := "master" |};
       {| monitoringSubjectID := 4; distroID := "Ubuntu18.04";
          revision := "tags/v3-azure" |} ]).
Proof. vm_compute. reflexivity. Qed.

Lemma update_revisions_set_equality_witness :
  {| monitoringSubjectID := 2; distroID := "Ubuntu18.04";
     revision := "tags/v1-azure" |}
  ∈ update_revisions_for_distro true next_key "Ubuntu18.04"
      ["tags/v1-azure"; "tags/v3-azure"] subjects_ex.
Proof.
  destruct (update_revisions_set_equality true next_key "Ubuntu18.04"
              ["tags/v1-azure"; "tags/v3-azure"] subjects_ex)
    as (_ & Hkept & _ & _).
  apply Hkept.
  - apply elem_of_cons. right. apply elem_of_cons. by left.
  - reflexivity.
  - apply elem_of_cons. by left.
Defined.

Lemma update_tracked_revisions_policy_witness :
  (∃ rows',
     update_tracked_revisions true next_key unit toy_ls_remote "Ubuntu18.04" tt
       subjects_ex = (Ok tt, rows')
     ∧ revisions_of "Ubuntu18.04" rows' = list_to_set (select_tags tags_listing))
  ∧ update_tracked_revisions true next_key unit toy_ls_remote "Ubuntu-offline" tt
      subjects_ex
    = (Raise (GitCommandError "fatal: Could not resolve host"), subjects_ex)
  ∧ update_tracked_revisions true next_key unit toy_ls_remote "Debian9" tt
      subjects_ex = (Ok tt, subjects_ex).
Proof.
  split; [|split].
  - destruct (update_tracked_revisions_policy true next_key unit toy_ls_remote
                "Ubuntu18.04" tt subjects_ex) as (Hok & _ & _).
    destruct (Hok tags_listing eq_refl eq_refl) as (rows' & Hrun & Hset & _).
    exists rows'. by split.
  - destruct (update_tracked_revisions_policy true next_key unit toy_ls_remote
                "Ubuntu-offline" tt subjects_ex) as (_ & Hfail & _).
    apply Hfail; reflexivity.
  - destruct (update_tracked_revisions_policy true next_key unit toy_ls_remote
                "Debian9" tt subjects_ex) as (_ & _ & Hskip).
    apply Hskip. reflexivity.
Defined.

End RevisionsExamples.

(** ** The monitor: references, skipped subjects, stored records *)

Section MonitorMore.

Import Monitor.

Lemma string_append_assoc (a b c : string) :
  String.append (String.append a b) c = String.append a (String.append b c).
Proof.
  induction a as [|x a IH]; [done|].
  change (String x (String.append (String.append a b) c)
          = String x (String.append a (String.append b c))).
  by rewrite IH.
Qed.

(** X: the local reference of a subject always starts with the name of its
    distro and a slash; when the name of the distro has no slash, the local
    reference is that name, a slash and the remote reference. *)
Theorem local_ref_namespaced (subject : MonitoringSubjects) :
  startswith (fst (local_and_remote_ref subject))
    (String.append (distroID subject) "/") = true
  ∧ (contains "/" (distroID subject) = false →
     fst (local_and_remote_ref subject)
     = String.append (distroID subject)
         (String.append "/" (snd (local_and_remote_ref subject)))).
Proof.
  unfold local_and_remote_ref.
  destruct (startswith (revision subject) (String.append (distroID subject) "/"))
    eqn:Hs; simpl.
  - split; [done|]. intros Hd.
    destruct (prefix_split _ _ Hs) as [rest Hrest].
    rewrite string_append_assoc in Hrest.
    change (String.append "/" rest) with (String "/" rest) in Hrest.
    rewrite Hrest. by rewrite (after_first_append "/" _ rest Hd).
  - split; [|done]. unfold startswith.
    rewrite <- (string_append_assoc (distroID subject) "/" (revision subject)).
    apply prefix_append.
Qed.

Lemma py_min_spec (xs : list Z) (t : Z) :
  py_min xs = Ok t → t ∈ xs ∧ ∀ x, x ∈ xs → (t ≤ x)%Z.
Proof.
  destruct xs as [|x0 xs]; [done|]. simpl. intros [= <-].
  revert x0. induction xs as [|y xs IH]; intros x0; simpl.
  - split; [apply elem_of_cons; by left|].
    intros x Hx. apply list_elem_of_singleton in Hx as ->. lia.
  - destruct (IH (Z.min x0 y)) as [Hin Hle]. split.
    + apply elem_of_cons in Hin as [Hin|Hin].
      * rewrite Hin. destruct (Z.min_spec x0 y) as [[_ ->]|[_ ->]].
        -- apply elem_of_cons. by left.
        -- apply elem_of_cons. right. apply elem_of_cons. by left.
      * apply elem_of_cons. right. apply elem_of_cons. by right.
    + intros x Hx.
      assert (Hm : (fold_left Z.min xs (Z.min x0 y) ≤ Z.min x0 y)%Z)
        by (apply Hle, elem_of_cons; by left).
      apply elem_of_cons in Hx as [->|Hx]; [lia|].
      apply elem_of_cons in Hx as [->|Hx]; [lia|].
      apply Hle. apply elem_of_cons. by right.
Qed.

(** *** No record twice *)

Lemma add_loop_NoDup (autoflush : bool) (sid : Z) (S : list Z)
    (table pending : list MonitoringSubjectsMissingPatches) :
  NoDup (table ++ pending) →
  (autoflush = true ∨ (NoDup S ∧ ∀ r, r ∈ pending → mp_patchID r ∉ S)) →
  NoDup (table ++ add_loop autoflush sid S table pending).
Proof.
  revert pending. induction S as [|x S IH]; intros pending Hnd Hcase; [done|].
  simpl.
  destruct (filter _ _) as [|r l] eqn:Hf.
  - set (r0 := {| mp_monitoringSubjectID := sid; mp_patchID := x |}).
    assert (Hrec : Is_true (is_record sid x r0)).
    { unfold is_record, r0. simpl. by rewrite !Z.eqb_refl. }
    assert (Hfresh : r0 ∉ table ++ pending).
    { intros Hin. apply elem_of_app in Hin as [Hin|Hin].
      - eapply (filter_nil_not_elem_of _ _ r0); [exact Hf|exact Hrec|].
        destruct autoflush; [apply elem_of_app; by left|done].
      - destruct Hcase as [->|[_ Hp]].
        + eapply (filter_nil_not_elem_of _ _ r0); [exact Hf|exact Hrec|].
          apply elem_of_app. by right.
        + apply (Hp r0 Hin). apply elem_of_cons. by left. }
    apply IH.
    + rewrite app_assoc. apply NoDup_app. split; [done|]. split.
      * intros r' Hr' Hin. apply list_elem_of_singleton in Hin as ->. done.
      * apply NoDup_singleton.
    + destruct Hcase as [->|[HS Hp]]; [by left|right].
      apply NoDup_cons in HS as [Hx HS]. split; [done|].
      intros r' Hr'. apply elem_of_app in Hr' as [Hr'|Hr'].
      * intros Hin. apply (Hp r' Hr'). apply elem_of_cons. by right.
      * apply list_elem_of_singleton in Hr' as ->. done.
  - apply IH; [done|].
    destruct Hcase as [->|[HS Hp]]; [by left|right].
    apply NoDup_cons in HS as [Hx HS]. split; [done|].
    intros r' Hr' Hin. apply (Hp r' Hr'). apply elem_of_cons. by right.
Qed.

(** X: when no record is in the table twice, none is in it twice after the
    reconciler, provided the adding session sees its own rows or the list of
    patch ids has no id twice. *)
Theorem reconcile_no_duplicates (autoflush : bool) (sid : Z) (S : list Z)
    (rows : list MonitoringSubjectsMissingPatches) :
  NoDup rows → (autoflush = true ∨ NoDup S) →
  NoDup (reconcile autoflush sid S rows).
Proof.
  intros Hnd Hcase. unfold reconcile, add_missing.
  apply add_loop_NoDup.
  - rewrite app_nil_r. unfold delete_present. by apply NoDup_filter.
  - destruct Hcase as [->|HS]; [by left|right]. split; [done|].
    intros r Hr. by apply elem_of_nil in Hr.
Qed.

(** *** What a successful turn records *)

Variable since : string.
Variable tracked_paths : list string.
Variable Repo : Type.
Variable git_log : Repo → list string → result string.
Variable DownstreamPatch : Type.
Variable process_commits : Repo → string → Z → result (list DownstreamPatch).
Variable patch_matches : list DownstreamPatch → PatchData → bool.
Variable autoflush : bool.

#[local] Abbreviation detect :=
  (missing_cherries since tracked_paths Repo git_log).
#[local] Abbreviation subject_run :=
  (monitor_subject since tracked_paths Repo git_log DownstreamPatch
     process_commits patch_matches autoflush).

Lemma missing_ids_reconcile (sid : Z) (S : list Z)
    (rows : list MonitoringSubjectsMissingPatches) (x : Z) :
  x ∈ missing_ids sid (reconcile autoflush sid S rows) ↔ x ∈ S.
Proof.
  rewrite elem_of_missing_ids. split.
  - intros (r & Hr & Hs & <-).
    by apply (elem_of_reconcile autoflush) in Hr as [_ Hr]; auto.
  - intros Hx. unfold reconcile, add_missing.
    destruct (add_loop_complete autoflush sid S (delete_present sid S rows) [] x Hx)
      as (r & Hr & Hrec).
    exists r. split; [|done]. apply elem_of_app. tauto.
Qed.

Lemma elem_of_candidates (cherries : gset string) (rows : list PatchData)
    (p : PatchData) :
  p ∈ candidate_patches cherries rows ↔ p ∈ rows ∧ commitID p ∈ cherries.
Proof.
  unfold candidate_patches, order_by_commitTime.
  rewrite merge_sort_Permutation, list_elem_of_filter, bool_decide_spec. tauto.
Qed.

(** X: when the detector finds candidates with rows in PatchData and the
    downstream commits can be parsed, [monitor_subject] returns; the
    downstream commits were parsed since the commit time of the oldest
    candidate; the patch ids then recorded for the subject are exactly those
    of the candidate rows that the matcher does not find downstream; the
    repository, the PatchData table and the records of every other subject
    are what they were. *)
Theorem monitor_subject_records (subject : MonitoringSubjects)
    (reference : option string) (cherries : gset string)
    (earliest : Z) (ds : list DownstreamPatch) (w : World Repo) :
  detect (default (revision subject) reference) w = (Ok cherries, w) →
  py_min (map commitTime (candidate_patches cherries (patch_data w)))
    = Ok earliest →
  process_commits (repo w) (default (revision subject) reference) earliest
    = Ok ds →
  ∃ w',
    subject_run subject reference w = (Ok tt, w')
    ∧ repo w' = repo w ∧ patch_data w' = patch_data w
    ∧ (∀ p, p ∈ patch_data w → commitID p ∈ cherries →
            (earliest ≤ commitTime p)%Z)
    ∧ (∀ x, x ∈ missing_ids (monitoringSubjectID subject) (missing_patches w')
            ↔ ∃ p, p ∈ patch_data w ∧ patchID p = x
                   ∧ commitID p ∈ cherries ∧ patch_matches ds p = false)
    ∧ (∀ sid, sid ≠ monitoringSubjectID subject →
              records_of sid (missing_patches w')
              = records_of sid (missing_patches w)).
Proof.
  intros Hd Hmin Hproc.
  eexists. split; [|split; [|split; [|split; [|split]]]].
  - unfold monitor_subject. unfold bind at 1. rewrite Hd.
    unfold bind, get, lift, modify. rewrite Hmin, Hproc. reflexivity.
  - done.
  - done.
  - intros p Hp Hc. apply py_min_spec in Hmin as [_ Hle]. apply Hle.
    apply (list_elem_of_fmap_2 commitTime). by apply elem_of_candidates.
  - intros x. simpl.
    match goal with
    | |- context [add_missing _ ?sid ?S (delete_present ?sid ?S ?rows)] =>
        change (add_missing autoflush sid S (delete_present sid S rows))
          with (reconcile autoflush sid S rows)
    end.
    rewrite missing_ids_reconcile.
    change (map patchID) with (fmap (M:=list) patchID).
    rewrite list_elem_of_fmap. split.
    + intros (p & -> & Hp). apply list_elem_of_filter in Hp as [Hm Hp].
      apply elem_of_candidates in Hp as [Hp Hc]. exists p.
      repeat split; try done. by apply negb_True, Is_true_false in Hm.
    + intros (p & Hp & <- & Hc & Hm). exists p. split; [done|].
      apply list_elem_of_filter. split; [|by apply elem_of_candidates].
      by rewrite Hm.
  - intros sid Hne. simpl.
    match goal with
    | |- context [add_missing _ ?sid0 ?S (delete_present ?sid0 ?S ?rows)] =>
        change (add_missing autoflush sid0 S (delete_present sid0 S rows))
          with (reconcile autoflush sid0 S rows)
    end.
    by apply records_of_reconcile.
Qed.

Variable approx_date_since : Z.
Variable remote_exists : Repo → string → bool.
Variable fetch : Repo → string → string → FetchOpt → result Z * Repo.
Variable has_reference : Repo → string → bool.
Variable create_tag : Repo → string → string → Repo.

#[local] Abbreviation run :=
  (monitor_downstream since approx_date_since tracked_paths Repo git_log
     remote_exists fetch has_reference create_tag DownstreamPatch
     process_commits patch_matches autoflush).

(** X: the subjects of the distros whose name starts with Debian take no
    part in a run: with or without them the outcome and the final state are
    the same. *)
Theorem debian_subjects_skipped (subjects : list MonitoringSubjects)
    (w : World Repo) :
  run subjects w
  = run (filter (λ s, Is_true (negb (startswith (distroID s) "Debian"))) subjects) w.
Proof.
  revert w. unfold monitor_downstream.
  induction subjects as [|s subjects IH]; intros w; [done|].
  rewrite filter_cons. destruct (decide _) as [Hs|Hs].
  - simpl. unfold bind.
    destruct (monitor_downstream_body _ _ _ _ _ _ _ _ _ _ _ _ _ s w)
      as [[[]|e] w1]; [apply IH|done].
  - apply negb_True in Hs. simpl. unfold bind, monitor_downstream_body.
    destruct (startswith (distroID s) "Debian"); [|by exfalso; apply Hs].
    unfold ret. apply IH.
Qed.

End MonitorMore.

Section MonitorMoreExamples.

Import Monitor Fixtures MoreFixtures.

Lemma local_ref_namespaced_witness :
  local_and_remote_ref healthy_subject = ("Ubuntu-ok/v1", "v1")
  ∧ fst (local_and_remote_ref prefixed_subject)
    = String.append "Ubuntu-ok"
        (String.append "/" (snd (local_and_remote_ref prefixed_subject))).
Proof.
  split; [reflexivity|].
  destruct (local_ref_namespaced prefixed_subject) as [_ H].
  apply H. reflexivity.
Defined.

Lemma reconcile_no_duplicates_witness :
  NoDup (reconcile true 2 [2; 3; 3]%Z
     [ {| mp_monitoringSubjectID := 2; mp_patchID := 1 |};
       {| mp_monitoringSubjectID := 2; mp_patchID := 2 |};
       {| mp_monitoringSubjectID := 3; mp_patchID := 1 |} ]).
Proof.
  apply reconcile_no_duplicates; [|by left].
  apply (bool_decide_unpack _). vm_compute. exact I.
Defined.

(** A session that does not see its own rows adds a repeated id twice. *)
Example reconcile_without_autoflush :
  reconcile false 2 [3; 3]%Z []
  = [ {| mp_monitoringSubjectID := 2; mp_patchID := 3 |};
      {| mp_monitoringSubjectID := 2; mp_patchID := 3 |} ].
Proof. reflexivity. Qed.

Lemma monitor_subject_records_witness :
  ∃ w',
    toy_monitor_subject healthy_subject (Some "Ubuntu-ok/v1") toy_world
      = (Ok tt, w')
    ∧ (∀ x, x ∈ missing_ids 2 (missing_patches w')
            ↔ ∃ p, p ∈ patch_data toy_world ∧ patchID p = x
                   ∧ commitID p ∈ (line_set (String.concat ParseData.nl
                                                ["c2"; "c3"; "c9"])
                                   ∩ line_set (String.concat ParseData.nl
                                                 ["c1"; "c2"; "c3"]))
                   ∧ toy_patch_matches [] p = false).
Proof.
  destruct (monitor_subject_records toy_since toy_paths ToyRepo toy_log unit
              toy_process_commits toy_patch_matches true healthy_subject
              (Some "Ubuntu-ok/v1")
              (line_set (String.concat ParseData.nl ["c2"; "c3"; "c9"])
               ∩ line_set (String.concat ParseData.nl ["c1"; "c2"; "c3"]))
              20%Z [] toy_world)
    as (w' & Hrun & _ & _ & _ & Hids & _).
  - reflexivity.
  - vm_compute. reflexivity.
  - reflexivity.
  - exists w'. by split.
Defined.

Example debian_subject_skipped :
  toy_monitor_downstream [debian_subject; healthy_subject] toy_world
  = toy_monitor_downstream [healthy_subject] toy_world.
Proof. vm_compute. reflexivity. Qed.

End MonitorMoreExamples.

(** ** The symbols field: what is written and what is read back *)

Section SymbolsFieldProofs.

Import Symbols Text.

Variable iter : gset string → list string.
Hypothesis iter_perm : ∀ X : gset string, iter X ≡ₚ elements X.

Lemma iter_elem_of (X : gset string) (s : string) : s ∈ iter X ↔ s ∈ X.
Proof. by rewrite (iter_perm X), elem_of_elements. Qed.

Lemma iter_nil (X : gset string) : iter X = [] ↔ X = ∅.
Proof.
  split.
  - intros H. apply set_eq. intros s. rewrite <- iter_elem_of, H.
    split; [by intros ?%elem_of_nil|by intros ?%not_elem_of_empty].
  - intros ->. apply Permutation_nil_r. rewrite (iter_perm ∅).
    by rewrite elements_empty.
Qed.

Lemma split_stored (D : gset string) :
  (∀ s, s ∈ D → contains " " s = false) →
  D ≠ ∅ → split " " (join " " (iter D)) = iter D.
Proof.
  intros Hfree Hne. apply (split_join " ").
  - by rewrite iter_nil.
  - apply Forall_forall. intros s Hs. by apply Hfree, iter_elem_of.
Qed.

(** X: the symbols of a delta that are written to the field, joined by
    spaces, are read back by splitting at the spaces as exactly that set
    when the delta is not empty and no symbol has a space, and the checker
    then finds a missing symbol exactly when the delta has a symbol that the
    reference lacks. An empty delta is written as the empty string and read
    back as the set of the empty word, which the checker takes as missing
    unless the reference has an empty line. *)
Theorem symbols_field_round_trip (D file : gset string) :
  (∀ s, s ∈ D → contains " " s = false) →
  (D ≠ ∅ →
     (list_to_set (split " " (join " " (iter D))) : gset string) = D
     ∧ (has_missing file (join " " (iter D)) = true ↔ ∃ s, s ∈ D ∧ s ∉ file))
  ∧ (D = ∅ →
     split " " (join " " (iter D)) = [""]
     ∧ (has_missing file (join " " (iter D)) = true ↔ "" ∉ file)).
Proof.
  intros Hfree. split.
  - intros Hne. rewrite has_missing_spec, (split_stored D Hfree Hne). split.
    + apply set_eq. intros s. by rewrite elem_of_list_to_set, iter_elem_of.
    + split; intros (s & Hs & Hn); exists s; (split; [|done]);
        by apply iter_elem_of.
  - intros HD. assert (Hnil : iter D = []) by by apply iter_nil.
    rewrite has_missing_spec, Hnil. simpl. split; [done|]. split.
    + intros (w & Hw & Hn). by apply list_elem_of_singleton in Hw as ->.
    + intros Hn. exists "". split; [|done]. by apply list_elem_of_singleton.
Qed.

End SymbolsFieldProofs.

Section SymbolsFieldExamples.

Import Symbols.

Lemma symbols_field_round_trip_witness :
  (list_to_set (split " " (join " " (elements ({["c"; "d"]} : gset string))))
     : gset string) = {["c"; "d"]}.
Proof.
  destruct (symbols_field_round_trip elements (λ X, reflexivity _)
              {["c"; "d"]} {["a"; "c"]}) as [Hne _].
  - intros s Hs. apply elem_of_union in Hs as [Hs|Hs];
      apply elem_of_singleton in Hs as ->; reflexivity.
  - apply Hne. intros H.
    apply (not_elem_of_empty (C:=gset string) "c"). rewrite <- H.
    apply elem_of_union. left. by apply elem_of_singleton.
Defined.

End SymbolsFieldExamples.

(** ** The tracker run again, and the tracker over the whole table *)

Section TrackerMore.

Import Symbols Text.

Variable checkout_error : string → option string.
Variable ctags : string → list string → Z * string.
Variable iter : gset string → list string.
Variable paths : list string.

#[local] Abbreviation syms := (symbols_at ctags paths).
#[local] Abbreviation replay_ := (replay checkout_error ctags iter paths).
#[local] Abbreviation persist_ := (persist iter).
#[local] Abbreviation deltas_ := (deltas ctags paths).
#[local] Abbreviation track :=
  (fun commits prev => map_symbols_to_patch checkout_error ctags iter commits paths prev).

#[local] Abbreviation replay_succeeds :=
  (TrackerNotions.replay_succeeds checkout_error ctags paths).

Lemma track_ok_table (commits : list string) (prev : string) (st : State) :
  replay_succeeds commits prev (head st) →
  (∀ c, c ∈ commits → one_row c (patch_table st)) →
  track commits prev st
  = (Ok tt,
     {| head := head st;
        patch_table := fold_left persist_ (deltas_ (syms prev) commits)
                         (patch_table st) |}).
Proof.
  intros (Hprev & Hinit & Hct & Hall) Hrows.
  destruct (replay_ok checkout_error ctags iter paths commits None
              (set_head prev st)) as [st2 Hrun]; [done| |].
  { intros c Hc. destruct (Hall c Hc). repeat split; try done. by apply Hrows. }
  pose proof (replay_progress _ _ _ _ _ _ _ _ _ Hrun) as (k & _ & Htab & Hk).
  rewrite (Hk eq_refl) in Htab. simpl in Htab.
  rewrite take_ge in Htab
    by (rewrite <- (deltas_fst ctags paths (syms prev) commits) at 2;
        by rewrite length_map).
  unfold map_symbols_to_patch, try_finally. unfold bind at 1. unfold gets at 1.
  unfold bind at 1. unfold checkout at 1. rewrite Hprev, Hrun.
  unfold checkout. rewrite Hinit. unfold set_head. by rewrite Htab.
Qed.

(** *** Rows under a sequence of writes *)

Lemma elem_of_fold_persist (cds : list (string * gset string))
    (table : list PatchData) (p' : PatchData) :
  p' ∈ fold_left persist_ cds table →
  ∃ p, p ∈ table ∧ commitID p = commitID p' ∧ patchID p = patchID p'
       ∧ commitTime p = commitTime p'.
Proof.
  revert table. induction cds as [|cd cds IH]; intros table Hp; [by eauto|].
  simpl in Hp. apply IH in Hp as (p1 & Hp1 & Hc & Hi & Ht).
  apply elem_of_persist in Hp1 as (p & Hp & ->). exists p. split; [done|].
  unfold set_symbols in *. by destruct (String.eqb _ _).
Qed.

Lemma fold_persist_map_ids (cds : list (string * gset string))
    (table : list PatchData) :
  map commitID (fold_left persist_ cds table) = map commitID table.
Proof.
  revert table. induction cds as [|cd cds IH]; intros table; [done|].
  simpl. rewrite IH. unfold persist. rewrite map_map.
  apply map_ext. intros p. apply commitID_set_symbols.
Qed.

Lemma one_row_fold_persist (c : string) (cds : list (string * gset string))
    (table : list PatchData) :
  one_row c table → one_row c (fold_left persist_ cds table).
Proof.
  revert table. induction cds as [|cd cds IH]; intros table H; [done|].
  simpl. by apply IH, one_row_persist.
Qed.

Lemma last_write (cds : list (string * gset string)) (c : string) :
  c ∈ map fst cds →
  ∃ l1 d l2, cds = l1 ++ (c, d) :: l2 ∧ c ∉ map fst l2.
Proof.
  induction cds as [|[c0 d0] cds IH]; intros Hc; [by apply elem_of_nil in Hc|].
  destruct (decide (c ∈ map fst cds)) as [Hin|Hnot].
  - destruct (IH Hin) as (l1 & d & l2 & -> & Hl2).
    by exists ((c0, d0) :: l1), d, l2.
  - simpl in Hc. apply elem_of_cons in Hc as [->|Hc]; [|done].
    by exists [], d0, cds.
Qed.

Lemma PatchData_ext (p q : PatchData) :
  patchID p = patchID q → commitID p = commitID q →
  commitTime p = commitTime q → symbols p = symbols q → p = q.
Proof. destruct p, q. simpl. congruence. Qed.

Lemma persist_twice (cds : list (string * gset string)) (table : list PatchData) :
  fold_left persist_ cds (fold_left persist_ cds table)
  = fold_left persist_ cds table.
Proof.
  assert (Hrow : ∀ (l : list (string * gset string)) (t : list PatchData),
            fold_left persist_ l t
            = map (λ p, fold_left (λ q cd, set_symbols cd.1 (join " " (iter cd.2)) q)
                          l p) t).
  { induction l as [|cd l IH]; intros t; simpl; [by rewrite map_id|].
    rewrite IH. unfold persist. by rewrite map_map. }
  set (F := λ p, fold_left (λ q cd, set_symbols cd.1 (join " " (iter cd.2)) q)
                   cds p).
  assert (Hid : ∀ p, commitID (F p) = commitID p ∧ patchID (F p) = patchID p
                     ∧ commitTime (F p) = commitTime p).
  { intros p. unfold F. clear. revert p.
    induction cds as [|cd l IH]; intros p; [done|]. simpl.
    destruct (IH (set_symbols cd.1 (join " " (iter cd.2)) p)) as (-> & -> & ->).
    unfold set_symbols. by destruct (String.eqb _ _). }
  assert (Hlast : ∀ l1 c d l2 p,
            cds = l1 ++ (c, d) :: l2 → c ∉ map fst l2 → commitID p = c →
            symbols (F p) = Some (join " " (iter d))).
  { intros l1 c d l2 p Hcds Hl2 Hc.
    eapply (fold_persist_last iter l1 l2 [p] c d (F p)); [done| |].
    - rewrite <- Hcds, Hrow. simpl. apply elem_of_cons. by left.
    - rewrite <- Hc. apply Hid. }
  assert (Hkeep : ∀ p, commitID p ∉ map fst cds → F p = p).
  { intros p Hp.
    assert (Hin : F p ∈ fold_left persist_ cds [p])
      by (rewrite Hrow; simpl; apply elem_of_cons; by left).
    apply fold_persist_untouched in Hin.
    - by apply list_elem_of_singleton in Hin.
    - by rewrite (proj1 (Hid p)). }
  rewrite !Hrow, map_map. apply map_ext. intros p. change (F (F p) = F p).
  destruct (decide (commitID p ∈ map fst cds)) as [Hin|Hnot].
  - destruct (last_write cds _ Hin) as (l1 & d & l2 & Hcds & Hl2).
    pose proof (Hlast l1 _ d l2 p Hcds Hl2 eq_refl) as H1.
    pose proof (Hlast l1 _ d l2 (F p) Hcds Hl2 (proj1 (Hid p))) as H2.
    destruct (Hid (F p)) as (Hc & Hi & Ht).
    apply PatchData_ext; [exact Hi|exact Hc|exact Ht|].
    transitivity (Some (join " " (iter d))); [exact H2|symmetry; exact H1].
  - by rewrite !(Hkeep p Hnot).
Qed.

(** X: a replay that succeeds can be run again: the second run succeeds
    too and leaves the table, and the work tree, as the first run left
    them. *)
Theorem tracker_rerun (commits : list string) (prev : string) (st : State) :
  replay_succeeds commits prev (head st) →
  (∀ c, c ∈ commits → one_row c (patch_table st)) →
  ∃ st',
    track commits prev st = (Ok tt, st')
    ∧ track commits prev st' = (Ok tt, st').
Proof.
  intros Henv Hrows. eexists. split; [by apply track_ok_table|].
  rewrite track_ok_table; simpl.
  - by rewrite persist_twice.
  - done.
  - intros c Hc. by apply one_row_fold_persist, Hrows.
Qed.

(** *** The commits of the table, oldest first *)

Lemma one_row_of_NoDup (table : list PatchData) (p : PatchData) :
  NoDup (map commitID table) → p ∈ table → one_row (commitID p) table.
Proof.
  induction table as [|q table IH]; intros Hnd Hp; [by apply elem_of_nil in Hp|].
  simpl in Hnd. apply NoDup_cons in Hnd as [Hq Hnd]. unfold one_row.
  rewrite filter_cons.
  destruct (decide (Is_true (String.eqb (commitID q) (commitID p)))) as [He|He].
  - apply Is_true_true, String.eqb_eq in He. exists q. f_equal.
    destruct (filter _ table) as [|r l] eqn:Hf; [done|]. exfalso.
    assert (Hr : r ∈ filter (λ p0, Is_true (String.eqb (commitID p0) (commitID p)))
                       table) by (rewrite Hf; apply elem_of_cons; by left).
    apply list_elem_of_filter in Hr as [Hc Hr].
    apply Is_true_true, String.eqb_eq in Hc. apply Hq. rewrite He, <- Hc.
    by apply (list_elem_of_fmap_2 commitID).
  - apply elem_of_cons in Hp as [->|Hp].
    + exfalso. apply He. by apply Is_true_true, String.eqb_refl.
    + by apply IH.
Qed.

Lemma NoDup_of_one_row (table : list PatchData) :
  (∀ p, p ∈ table → one_row (commitID p) table) → NoDup (map commitID table).
Proof.
  induction table as [|q table IH]; intros Hall; [constructor|].
  simpl. apply NoDup_cons.
  assert (Hq : ∀ r, r ∈ table → commitID r ≠ commitID q).
  { intros r Hr He. destruct (Hall q) as [p0 Hf]; [apply elem_of_cons; by left|].
    rewrite filter_cons in Hf.
    destruct (decide _) as [_|Hn];
      [|apply Hn; by apply Is_true_true, String.eqb_refl].
    injection Hf as _ Hf.
    eapply (filter_nil_not_elem_of _ _ r); [exact Hf| |exact Hr].
    by apply Is_true_true, String.eqb_eq. }
  split.
  - intros Hin. apply (list_elem_of_fmap_1 commitID) in Hin as (r & He & Hr).
    by apply (Hq r Hr).
  - apply IH. intros p Hp.
    destruct (Hall p) as [p0 Hf]; [apply elem_of_cons; by right|].
    rewrite filter_cons in Hf. destruct (decide _) as [He|_].
    + exfalso. apply Is_true_true, String.eqb_eq in He. by apply (Hq p Hp).
    + by exists p0.
Qed.

Lemma replay_rows (commits : list string) (b : option (gset string)) (st : State) :
  (b = None → fst (ctags (head st) paths) = 0%Z) →
  (∀ c, c ∈ commits →
        checkout_error c = None ∧ fst (ctags c paths) = 0%Z
        ∧ ∃ p, p ∈ patch_table st ∧ commitID p = c) →
  (fst (replay_ commits b st) = Ok tt
   ∧ ∀ c, c ∈ commits → one_row c (patch_table st))
  ∨ (fst (replay_ commits b st) = Raise MultipleResultsFound
     ∧ ∃ c, c ∈ commits ∧ ¬ one_row c (patch_table st)).
Proof.
  revert b st. induction commits as [|c rest IH]; intros b st Hb Hall.
  - left. split; [done|]. intros c Hc. by apply elem_of_nil in Hc.
  - destruct (Hall c) as (Hco & Hct & p & Hp & Hpc); [apply elem_of_cons; by left|].
    destruct (replay_ (c :: rest) b st) as [r st'] eqn:Hrun.
    simpl in Hrun. unfold bind at 1 in Hrun.
    assert (Hbefore : (match b with
                       | Some b0 => ret b0
                       | None => get_symbols ctags paths
                       end) st = (Ok (before_of ctags paths b st), st)).
    { destruct b as [b0|]; [done|]. simpl. by apply get_symbols_ok, Hb. }
    rewrite Hbefore in Hrun. unfold bind at 1 in Hrun.
    unfold checkout at 1 in Hrun. rewrite Hco in Hrun.
    unfold bind at 1 in Hrun. rewrite get_symbols_ok in Hrun by done.
    unfold bind at 1 in Hrun. unfold save_symbols at 1 in Hrun.
    change (patch_table (set_head c st)) with (patch_table st) in Hrun.
    change (head (set_head c st)) with c in Hrun.
    destruct (filter (λ p0, Is_true (String.eqb (commitID p0) c)) (patch_table st))
      as [|p1 [|p2 l]] eqn:Hf.
    + exfalso. eapply (filter_nil_not_elem_of _ _ p); [exact Hf| |exact Hp].
      by apply Is_true_true, String.eqb_eq.
    + simpl one in Hrun. cbv beta iota in Hrun.
      set (d := syms c ∖ before_of ctags paths b st) in *.
      change (set_table _ (set_head c st))
        with (set_table (persist_ (patch_table st) (c, d)) (set_head c st)) in Hrun.
      destruct (IH (Some (syms c))
                  (set_table (persist_ (patch_table st) (c, d)) (set_head c st)))
        as [[Hok Hrows]|[Hmany (c' & Hc' & Hnot)]].
      * done.
      * intros c' Hc'.
        destruct (Hall c') as (? & ? & p' & Hp' & Hpc');
          [apply elem_of_cons; by right|].
        repeat split; try done.
        exact (persist_commit_ids iter (patch_table st) (c, d) c'
                 (ex_intro _ p' (conj Hp' Hpc'))).
      * left. rewrite Hrun in Hok. split; [exact Hok|]. intros c' Hc'.
        apply elem_of_cons in Hc' as [->|Hc']; [by exists p1|].
        specialize (Hrows c' Hc').
        change (one_row c' (persist_ (patch_table st) (c, d))) in Hrows.
        destruct Hrows as [p' Hp']. rewrite filter_persist in Hp'.
        unfold one_row.
        destruct (filter (λ p0, Is_true (String.eqb (commitID p0) c'))
                    (patch_table st)) as [|q [|q' l']]; try done.
        by exists q.
      * right. rewrite Hrun in Hmany. split; [exact Hmany|].
        exists c'. split; [apply elem_of_cons; by right|].
        intros [q Hq]. apply Hnot.
        change (one_row c' (persist_ (patch_table st) (c, d))).
        unfold one_row. rewrite filter_persist, Hq. by eexists.
    + simpl in Hrun. injection Hrun as <- <-. right. split; [done|].
      exists c. split; [apply elem_of_cons; by left|].
      intros [q Hq]. rewrite Hf in Hq. discriminate Hq.
Qed.

End TrackerMore.
